(** * NBA player comparison tool: normalisation and similarity search

    A shallow embedding of [streamlit_app.py]: the load step
    [load_and_process_data] (mean imputation, standard scaling, career
    score) and the query [find_similar_players] (exclusion of the target,
    optional position filter, nearest career scores).

    Numbers.  The program computes in float64.  The development computes in
    exact canonical rationals [Qc]; [NaN], the missing value of pandas, is
    [None] of [option Qc].  Rounding is not modelled there, and the
    statements over [Qc] are those that hold with rounding as well, or say
    that they are about exact arithmetic.  The square root taken by the
    scaler is a parameter of the development, so that nothing proved
    depends on how it is computed.  Module [F64] gives the load step on
    binary64 numbers with their rounding; it is evaluated on the tables on
    which rounding decides: a constant column, and rows read in another
    order.

    Library calls are embedded by their documented behaviour:
    - [Series.mean], [DataFrame.sum]: missing values are skipped;
    - [DataFrame.fillna(series)]: a missing cell takes the value given for
      its column, and stays missing when that value is itself missing;
    - [StandardScaler]: per column, mean and population variance over the
      non-missing values, missing values kept by [transform], a variance of
      zero gives the scaling factor 1, an input without rows or without
      columns is rejected with an exception, and so is an infinite value,
      which [Qc] does not hold;
    - [DataFrame.nsmallest(n, col)] with its default [keep='first']: the
      first [n] rows in ascending order of [col], rows of equal value in
      their order of occurrence.

    Tables.  The frame read from the CSV file is given by its columns, each
    text or numeric.  The columns ['player'] and ['pos'] are text columns
    without missing cells, and the labels are distinct and differ from
    ['Career Score'], as [read_csv] delivers them for a file of player
    names, positions and statistics.  Reading the file itself is outside
    the development. *)

From Stdlib Require Import String List ZArith QArith Qcanon Qcabs.
From Stdlib Require Import Permutation Sorted Bool Lia Lqa.
From Stdlib Require PrimFloat.
Import ListNotations.

Local Open Scope string_scope.
Local Open Scope list_scope.

(** ** Exceptions *)

Module Py.

(** What a Python call yields: a value, or a raised exception. *)
Inductive exn : Type :=
| IndexError
| ValueError.

Inductive result (A : Type) : Type :=
| Ok (a : A)
| Raise (e : exn).
Arguments Ok {A} a.
Arguments Raise {A} e.

Definition bind {A B : Type} (c : result A) (k : A -> result B) : result B :=
  match c with
  | Ok a => k a
  | Raise e => Raise e
  end.

End Py.

Import Py.

Notation "x <- c ;; k" := (Py.bind c (fun x => k))
  (at level 61, c at next level, right associativity).

(** ** Numbers *)

Definition Qcleb (x y : Qc) : bool := Qle_bool x y.

Definition Qceqb (x y : Qc) : bool := Qeq_bool x y.

Definition Qc_of_nat (n : nat) : Qc := Q2Qc (inject_Z (Z.of_nat n)).

(** ** The part of pandas the program uses *)

Module Pandas.

(** [s.iloc[0]]: the first element, [IndexError] on an empty series. *)
Definition iloc0 {A : Type} (s : list A) : result A :=
  match s with
  | [] => Raise IndexError
  | a :: _ => Ok a
  end.

(** [df.empty] *)
Definition empty {A : Type} (df : list A) : bool :=
  match df with
  | [] => true
  | _ :: _ => false
  end.

Section SortValues.

Variable A : Type.
Variable key : A -> Qc.

(** Insertion in front of the first row whose key is not smaller: a row
    inserted this way stays ahead of the rows of equal key that follow
    it in the frame. *)
Fixpoint insert_row (x : A) (l : list A) : list A :=
  match l with
  | [] => [x]
  | y :: l' =>
      if Qcleb (key x) (key y) then x :: y :: l' else y :: insert_row x l'
  end.

(** Ascending stable sort of the rows on [key]. *)
Fixpoint sort_values (l : list A) : list A :=
  match l with
  | [] => []
  | x :: l' => insert_row x (sort_values l')
  end.

(** [df.nsmallest(n, key)], [keep='first']. *)
Definition nsmallest (n : Z) (l : list A) : list A :=
  if (n <=? 0)%Z then [] else firstn (Z.to_nat n) (sort_values l).

End SortValues.

Arguments insert_row {A} key x l.
Arguments sort_values {A} key l.
Arguments nsmallest {A} key n l.

(** [s.dropna()]: the values that are not missing. *)
Fixpoint dropna (s : list (option Qc)) : list Qc :=
  match s with
  | [] => []
  | Some x :: s' => x :: dropna s'
  | None :: s' => dropna s'
  end.

Definition Qcsum (xs : list Qc) : Qc := fold_right Qcplus (Q2Qc 0) xs.

(** [s.mean()], [skipna=True]: the mean of the values that are not
    missing, and missing itself when there is none. *)
Definition mean (s : list (option Qc)) : option Qc :=
  match dropna s with
  | [] => None
  | xs => Some (Qcsum xs / Qc_of_nat (length xs))%Qc
  end.

(** [s.fillna(value)] for one column: a missing [value] fills nothing. *)
Definition fillna (s : list (option Qc)) (value : option Qc)
  : list (option Qc) :=
  match value with
  | None => s
  | Some v =>
      map (fun c => match c with None => Some v | Some x => Some x end) s
  end.

(** What a missing cell counts for in a sum that skips it. *)
Definition skipna (c : option Qc) : Qc :=
  match c with
  | Some x => x
  | None => Q2Qc 0
  end.

(** [df.sum(axis=1)], [skipna=True], for a frame of [n] rows: the
    columns are added up, one after the other, onto a column of zeros. *)
Definition add_column (acc : list Qc) (col : list (option Qc)) : list Qc :=
  map (fun ac => (fst ac + skipna (snd ac))%Qc) (combine acc col).

Definition sum_axis1 (n : nat) (cols : list (list (option Qc))) : list Qc :=
  fold_left add_column cols (repeat (Q2Qc 0) n).

(** [s.take(indices)]: the rows at the given positions, in that order. *)
Definition take {A : Type} (d : A) (indices : list nat) (s : list A)
  : list A :=
  map (fun i => nth i s d) indices.

End Pandas.

Import Pandas.

(** ** The normalised table, row by row *)

(** A row of [final_df]: the two text columns, the normalised statistics
    and the career score. *)
Record Row : Type := mkRow {
  player : string;
  pos : string;
  stats : list (option Qc);
  career_score : Qc
}.

(** A row of the frame a query returns: a row of [final_df] with the
    added column [score_difference]. *)
Record SimilarRow : Type := mkSimilar {
  sim_row : Row;
  score_difference : Qc
}.

(** ** find_similar_players *)

Definition find_similar_players (final_df : list Row) (target_player : string)
    (num_comparisons : Z) (same_position_only : bool)
  : result (list SimilarRow) :=
  let target_data :=
    filter (fun r => String.eqb (player r) target_player) final_df in
  if empty target_data then Ok []
  else
    let other_players :=
      filter (fun r => negb (String.eqb (player r) target_player)) final_df in
    other_players <-
      (if same_position_only then
         target_position <- iloc0 (map pos target_data) ;;
         Ok (filter (fun r => String.eqb (pos r) target_position) other_players)
       else Ok other_players) ;;
    target_score <- iloc0 (map career_score target_data) ;;
    let other_players :=
      map (fun r => mkSimilar r (Qcabs (career_score r - target_score)))
          other_players in
    Ok (nsmallest score_difference num_comparisons other_players).

(** ** The raw table *)

(** A column of the frame read from the CSV file, by dtype: text
    ([object]) or numeric ([float64], missing values allowed). *)
Inductive column : Type :=
| TextCol (values : list string)
| NumCol (values : list (option Qc)).

Definition column_length (c : column) : nat :=
  match c with
  | TextCol v => length v
  | NumCol v => length v
  end.

(** [nba_data]: the text columns ['player'] and ['pos'], each of which
    the file may lack, and the remaining columns under their labels. *)
Record RawFrame : Type := mkRaw {
  raw_player : option (list string);
  raw_pos : option (list string);
  raw_columns : list (string * column)
}.

(** [df.select_dtypes(include=[np.number])] *)
Fixpoint select_dtypes_number (cols : list (string * column))
  : list (string * list (option Qc)) :=
  match cols with
  | [] => []
  | (label, NumCol v) :: cols' => (label, v) :: select_dtypes_number cols'
  | (_, TextCol _) :: cols' => select_dtypes_number cols'
  end.

(** [final_df]: the columns of [pos_df], the normalised columns and the
    column ['Career Score']. *)
Record FinalFrame : Type := mkFinal {
  f_player : list string;
  f_pos : list string;
  f_stats : list (string * list (option Qc));
  f_career : list Qc
}.

(** The rows of [final_df], as the queries select them. *)
Definition rows_of (df : FinalFrame) : list Row :=
  map (fun i =>
         mkRow (nth i (f_player df) "") (nth i (f_pos df) "")
               (map (fun c => nth i (snd c) None) (f_stats df))
               (nth i (f_career df) (Q2Qc 0)))
      (seq 0 (length (f_player df))).

(** [nba_data.take(indices)]: the same table with its rows rearranged. *)
Definition take_column (indices : list nat) (c : column) : column :=
  match c with
  | TextCol v => TextCol (take "" indices v)
  | NumCol v => NumCol (take None indices v)
  end.

Definition take_rows (indices : list nat) (nba_data : RawFrame) : RawFrame :=
  mkRaw (option_map (take "" indices) (raw_player nba_data))
        (option_map (take "" indices) (raw_pos nba_data))
        (map (fun lc => (fst lc, take_column indices (snd lc)))
             (raw_columns nba_data)).

(** ** StandardScaler and load_and_process_data *)

Section Load.

(** [np.sqrt] *)
Variable sqrt : Qc -> Qc.

(** Population variance of the values that are not missing. *)
Definition variance (s : list (option Qc)) : option Qc :=
  match mean s with
  | None => None
  | Some mu =>
      mean (map (option_map (fun x => ((x - mu) * (x - mu))%Qc)) s)
  end.

(** [scale_]: the standard deviation, and 1 for a variance of zero. *)
Definition scale_of (var : Qc) : Qc :=
  if Qceqb var (Q2Qc 0) then Q2Qc 1 else sqrt var.

(** One column through [fit] and [transform]. *)
Definition standardize (s : list (option Qc)) : list (option Qc) :=
  match mean s, variance s with
  | Some mu, Some var =>
      map (option_map (fun x => ((x - mu) / scale_of var)%Qc)) s
  | _, _ => map (fun _ => None) s
  end.

(** [StandardScaler().fit_transform(X)] for a frame of [n_samples] rows,
    given by its columns. *)
Definition fit_transform (n_samples : nat) (X : list (list (option Qc)))
  : result (list (list (option Qc))) :=
  match n_samples, X with
  | O, _ => Raise ValueError
  | _, [] => Raise ValueError
  | _, _ => Ok (map standardize X)
  end.

(** The load step.  [None] stands for the pair [(None, None)] the
    function returns after reporting an error. *)
Definition load_and_process_data (nba_data : RawFrame)
  : option (FinalFrame * RawFrame) :=
  match raw_player nba_data with
  | None => None
  | Some players =>
      let n := length players in
      let nba_data :=
        match raw_pos nba_data with
        | Some _ => nba_data
        | None => mkRaw (raw_player nba_data) (Some (repeat "Unknown" n))
                        (raw_columns nba_data)
        end in
      let pos_df :=
        (players,
         match raw_pos nba_data with Some p => p | None => [] end) in
      let stats := select_dtypes_number (raw_columns nba_data) in
      let stats := map (fun lc => (fst lc, fillna (snd lc) (mean (snd lc))))
                       stats in
      match fit_transform n (map snd stats) with
      | Raise _ => None
      | Ok normalized_stats =>
          let normalized_df := combine (map fst stats) normalized_stats in
          let career := sum_axis1 n (map snd normalized_df) in
          Some (mkFinal (fst pos_df) (snd pos_df) normalized_df career,
                nba_data)
      end
  end.

End Load.

(** A square root that computes: exact on the squares of rationals, and
    rounded towards zero on the numerator elsewhere. *)
Definition sqrt_floor (q : Qc) : Qc :=
  Q2Qc (Z.sqrt (Qnum q * Zpos (Qden q)) # Qden q).

(** ** Vocabulary of the statements *)

(** The target of a query: the first row of the table that bears the
    name, if there is one. *)
Definition target_row (final_df : list Row) (target_player : string)
  : option Row :=
  find (fun r => String.eqb (player r) target_player) final_df.

(** A row that may be returned for a target whose first row is [t0]: it
    bears another name and, when the filter is on, the position of [t0]. *)
Definition eligible (target_player : string) (same_position_only : bool)
    (t0 r : Row) : bool :=
  negb (String.eqb (player r) target_player)
  && (negb same_position_only || String.eqb (pos r) (pos t0)).

(** A row with its distance to the career score of [t0]. *)
Definition with_difference (t0 r : Row) : SimilarRow :=
  mkSimilar r (Qcabs (career_score r - career_score t0)).

(** The candidates of a query, in the order of the table. *)
Definition candidates (final_df : list Row) (target_player : string)
    (same_position_only : bool) : list SimilarRow :=
  match target_row final_df target_player with
  | None => []
  | Some t0 =>
      map (with_difference t0)
          (filter (eligible target_player same_position_only t0) final_df)
  end.

(** Ascending order of rows on a key. *)
Definition key_le {A : Type} (key : A -> Qc) (a b : A) : Prop :=
  (key a <= key b)%Qc.

(** Ascending order of a result on [score_difference]. *)
Definition by_difference : SimilarRow -> SimilarRow -> Prop :=
  key_le score_difference.

(** The rows of a result at distance [d]. *)
Definition at_difference (d : Qc) (l : list SimilarRow) : list SimilarRow :=
  filter (fun s => Qceqb (score_difference s) d) l.

(** Every column of the raw table has [n] rows. *)
Definition rectangular (nba_data : RawFrame) (n : nat) : Prop :=
  (forall p, raw_player nba_data = Some p -> length p = n)
  /\ (forall p, raw_pos nba_data = Some p -> length p = n)
  /\ Forall (fun lc => column_length (snd lc) = n) (raw_columns nba_data).

(** The sum of row [i] over a list of labelled numeric columns, missing
    cells skipped. *)
Definition row_sum (i : nat) (cols : list (string * list (option Qc))) : Qc :=
  Qcsum (map (fun c => skipna (nth i (snd c) None)) cols).

(** A numeric column of the raw table through imputation and scaling. *)
Definition normalize_column (sqrt : Qc -> Qc) (s : list (option Qc))
  : list (option Qc) :=
  standardize sqrt (fillna s (mean s)).

(** The normalised columns of a raw table, under their labels. *)
Definition normalized_columns (sqrt : Qc -> Qc) (nba_data : RawFrame)
  : list (string * list (option Qc)) :=
  map (fun lc => (fst lc, normalize_column sqrt (snd lc)))
      (select_dtypes_number (raw_columns nba_data)).

(** The frame the load step builds for a table whose ['player'] column is
    [players]. *)
Definition final_frame (sqrt : Qc -> Qc) (nba_data : RawFrame)
    (players : list string) : FinalFrame :=
  mkFinal players
          (match raw_pos nba_data with
           | Some p => p
           | None => repeat "Unknown" (length players)
           end)
          (normalized_columns sqrt nba_data)
          (sum_axis1 (length players)
                     (map snd (normalized_columns sqrt nba_data))).

(** What the page shows of a result: name, position, career score and
    distance of each row, as plain fractions. *)
Definition display (res : result (list SimilarRow))
  : option (list (string * string * Q * Q)) :=
  match res with
  | Raise _ => None
  | Ok rows =>
      Some (map (fun s => (player (sim_row s), pos (sim_row s),
                           this (career_score (sim_row s)),
                           this (score_difference s))) rows)
  end.

(** ** Sample tables *)

Definition Qc_of_Z (z : Z) : Qc := Q2Qc (inject_Z z).

Definition sample_row (name position : string) (score : Z) : Row :=
  mkRow name position [] (Qc_of_Z score).

(** Four players, two at each position. *)
Definition four_players : list Row :=
  [ sample_row "A" "G" 10; sample_row "B" "G" 9;
    sample_row "C" "F" 7; sample_row "D" "F" 15 ].

(** Three players at distance 1 of "A". *)
Definition tied_players : list Row :=
  [ sample_row "A" "G" 10; sample_row "B" "F" 11; sample_row "C" "G" 9;
    sample_row "D" "G" 11; sample_row "E" "F" 12 ].

(** Two rows bear the name "A". *)
Definition duplicate_players : list Row :=
  [ sample_row "B" "F" 4; sample_row "A" "G" 10; sample_row "C" "G" 9;
    sample_row "A" "F" 3; sample_row "D" "F" 2 ].

(** A raw table of five rows without a ['pos'] column: a text column, a
    column with one missing value, a constant column with one missing
    value and a column that is missing throughout. *)
Definition sample_raw : RawFrame :=
  mkRaw (Some ["A"; "B"; "C"; "D"; "E"]) None
        [ ("team", TextCol ["X"; "Y"; "X"; "Z"; "Y"]);
          ("pts", NumCol [Some (Qc_of_Z 5); Some (Qc_of_Z 7); None;
                          Some (Qc_of_Z 9); Some (Qc_of_Z 11)]);
          ("gp", NumCol [Some (Qc_of_Z 82); None; Some (Qc_of_Z 82);
                         Some (Qc_of_Z 82); Some (Qc_of_Z 82)]);
          ("inj", NumCol [None; None; None; None; None]) ].

Definition sample_final : FinalFrame :=
  final_frame sqrt_floor sample_raw ["A"; "B"; "C"; "D"; "E"].

Definition sample_original : RawFrame :=
  mkRaw (raw_player sample_raw) (Some (repeat "Unknown" 5))
        (raw_columns sample_raw).


(** ** The load step in float64 *)

(** The same load step on IEEE 754 binary64 numbers, with their rounding:
    the missing value is [nan].  The numeric columns are given directly,
    [select_dtypes] having dropped the others.  A sum is taken from the
    first number to the last, as numpy takes it over fewer than eight
    numbers: the module is about tables of fewer than eight rows and
    columns. *)
Module F64.

Import PrimFloat.
Local Open Scope float_scope.

(** [float(n)] *)
Fixpoint of_nat (n : nat) : float :=
  match n with
  | O => 0
  | S n' => of_nat n' + 1
  end.

(** [s.dropna()] *)
Definition dropna (s : list float) : list float :=
  filter (fun x => negb (is_nan x)) s.

(** [np.sum] *)
Definition sum (xs : list float) : float := fold_left add xs 0.

(** [s.mean()], [skipna=True] *)
Definition mean (s : list float) : float :=
  sum (dropna s) / of_nat (length (dropna s)).

(** [s.fillna(value)] *)
Definition fillna (s : list float) (value : float) : list float :=
  map (fun x => if is_nan x then value else x) s.

(** [np.finfo(np.float64).eps] *)
Definition eps : float := 0x1p-52.

(** What [StandardScaler.fit] keeps of a column. *)
Record Scaler : Set := mkScaler {
  mean_ : float;
  var_ : float;
  scale_ : float
}.

(** [StandardScaler().fit] on one column, as scikit-learn computes it in
    [_incremental_mean_and_var] and [_is_constant_feature]: the mean; the
    variance by the two-pass formula with its correction term; the scaling
    factor, which is 1 for a column the scaler takes for constant, its
    variance being no more than [n * eps * var + (n * mean * eps) ** 2],
    and the standard deviation otherwise. *)
Definition fit (s : list float) : Scaler :=
  let xs := dropna s in
  let n := of_nat (length xs) in
  let new_sum := sum xs in
  let updated_mean := new_sum / n in
  let T := new_sum / n in
  let temp := map (fun x => x - T) xs in
  let correction := sum temp in
  let unnormalized_variance :=
    sum (map (fun t => t * t) temp) - correction * correction / n in
  let variance := unnormalized_variance / n in
  let upper_bound :=
    n * eps * variance + (n * updated_mean * eps) * (n * updated_mean * eps) in
  let constant := variance <=? upper_bound in
  mkScaler updated_mean variance (if constant then 1 else sqrt variance).

(** [StandardScaler.transform] on one column *)
Definition transform (scaler : Scaler) (s : list float) : list float :=
  map (fun x => (x - mean_ scaler) / scale_ scaler) s.

(** A column through [fit] and [transform]. *)
Definition standardize (s : list float) : list float :=
  transform (fit s) s.

(** [df.sum(axis=1)], [skipna=True] *)
Definition add_column (acc col : list float) : list float :=
  map (fun ac => fst ac + (if is_nan (snd ac) then 0 else snd ac))
      (combine acc col).

Definition sum_axis1 (n : nat) (cols : list (list float)) : list float :=
  fold_left add_column cols (repeat 0 n).

(** [nba_data], its numeric columns apart from the others. *)
Record RawFrame : Type := mkRaw {
  raw_player : option (list string);
  raw_pos : option (list string);
  numeric_columns : list (string * list float)
}.

(** [final_df] *)
Record FinalFrame : Type := mkFinal {
  f_player : list string;
  f_pos : list string;
  f_stats : list (string * list float);
  f_career : list float
}.

(** [StandardScaler().fit_transform(X)]: an input without rows, without
    columns or with an infinite value is rejected. *)
Definition fit_transform (n_samples : nat) (X : list (list float))
  : result (list (list float)) :=
  match n_samples, X with
  | O, _ => Raise ValueError
  | _, [] => Raise ValueError
  | _, _ =>
      if existsb (existsb is_infinity) X then Raise ValueError
      else Ok (map standardize X)
  end.

(** The load step; of the pair it returns, the table [final_df]. *)
Definition load_and_process_data (nba_data : RawFrame) : option FinalFrame :=
  match raw_player nba_data with
  | None => None
  | Some players =>
      let n := length players in
      let pos :=
        match raw_pos nba_data with
        | Some p => p
        | None => repeat "Unknown"%string n
        end in
      let stats := numeric_columns nba_data in
      let stats := map (fun lc => (fst lc, fillna (snd lc) (mean (snd lc))))
                       stats in
      match fit_transform n (map snd stats) with
      | Raise _ => None
      | Ok normalized_stats =>
          let normalized_df := combine (map fst stats) normalized_stats in
          Some (mkFinal players pos normalized_df
                        (sum_axis1 n (map snd normalized_df)))
      end
  end.

(** The same table with its rows rearranged. *)
Definition take_rows (indices : list nat) (nba_data : RawFrame) : RawFrame :=
  mkRaw (option_map (take ""%string indices) (raw_player nba_data))
        (option_map (take ""%string indices) (raw_pos nba_data))
        (map (fun lc => (fst lc, take nan indices (snd lc)))
             (numeric_columns nba_data)).






End F64.

From Stdlib Require DecimalString.

(** ** The page *)

(** Exceptions of the page code: those of the query and load steps, and
    the one a missing column raises. *)
Module Page.

Inductive exn : Type :=
| Python (e : Py.exn)
| KeyError (label : string).

Inductive outcome (A : Type) : Type :=
| Done (a : A)
| Failed (e : exn).
Arguments Done {A} a.
Arguments Failed {A} e.

Definition bind {A B : Type} (c : outcome A) (k : A -> outcome B)
  : outcome B :=
  match c with
  | Done a => k a
  | Failed e => Failed e
  end.

(** A call of the query or load code made from the page. *)
Definition call {A : Type} (c : result A) : outcome A :=
  match c with
  | Ok a => Done a
  | Raise e => Failed (Python e)
  end.

(** A loop whose body may raise: the outputs of the iterations, in order,
    up to the first exception. *)
Fixpoint for_each {A B : Type} (body : A -> outcome (list B)) (l : list A)
  : outcome (list B) :=
  match l with
  | [] => Done []
  | a :: l' =>
      bind (body a) (fun out =>
      bind (for_each body l') (fun outs => Done (out ++ outs)))
  end.

End Page.

Import Page.

Declare Scope page_scope.
Delimit Scope page_scope with page.
Notation "x <- c ;; k" := (Page.bind c (fun x => k))
  (at level 61, c at next level, right associativity) : page_scope.

(** A cell of the raw table. *)
Inductive cell : Type :=
| TextCell (s : string)
| NumCell (x : option Qc).

Definition cells_of (c : column) : list cell :=
  match c with
  | TextCol v => map TextCell v
  | NumCol v => map NumCell v
  end.

(** What the page shows, widget by widget. *)
Module St.

(** A piece of an f-string: literal text, a number printed with a fixed
    number of decimals ([:.2f], [:.1f]), a cell printed as it is. *)
Inductive fragment : Type :=
| Str (s : string)
| Fixed (decimals : nat) (x : Qc)
| Cell (c : cell).

#[warnings="-register-all"]
Inductive element : Type :=
| subheader (body : string)
| metric (label : string) (value : fragment)
| write (body : list fragment)
| warning (body : string)
| columns (cols : list (list element))
| expander (label : string) (body : list element).

(** [st.selectbox(label, options)] for a widget whose selected position
    is [index]: the option at that position, the first option when the
    position is stale, [None] without options. *)
Definition selectbox {A : Type} (options : list A) (index : nat)
  : option A :=
  match options with
  | [] => None
  | first :: _ => Some (nth index options first)
  end.

End St.

(** The state of the three sidebar widgets. *)
Record Widgets : Type := mkWidgets {
  player_index : nat;
  count_index : nat;
  same_position_checked : bool
}.

(** [s.unique()]: the values in order of first appearance. *)
Fixpoint unique (s : list string) : list string :=
  match s with
  | [] => []
  | x :: s' => x :: filter (fun y => negb (String.eqb y x)) (unique s')
  end.

(** [df.nlargest(n, key)], [keep='first']: [nsmallest] on the negated
    key. *)
Definition nlargest {A : Type} (key : A -> Qc) (n : Z) (l : list A)
  : list A :=
  nsmallest (fun a => (- key a)%Qc) n l.

(** [s.dropna()] on a column of text: the values that are not missing. *)
Fixpoint notna (s : list (option string)) : list string :=
  match s with
  | [] => []
  | Some v :: s' => v :: notna s'
  | None :: s' => notna s'
  end.

(** [s.value_counts()], with its default [dropna=True]: every value that
    is not missing with its number of occurrences, the most frequent
    first; missing cells are not counted. *)
Definition value_counts (s : list (option string)) : list (string * nat) :=
  let present := notna s in
  sort_values (fun vc => (- Qc_of_nat (snd vc))%Qc)
    (map (fun v => (v, count_occ string_dec present v)) (unique present)).

(** [str.upper()] on ASCII letters. *)
Definition upper_ascii (c : Ascii.ascii) : Ascii.ascii :=
  let n := Ascii.nat_of_ascii c in
  if (97 <=? n)%nat && (n <=? 122)%nat then Ascii.ascii_of_nat (n - 32)
  else c.

Fixpoint upper (s : string) : string :=
  match s with
  | EmptyString => EmptyString
  | String c s' => String (upper_ascii c) (upper s')
  end.

(** [str(n)] for a natural number. *)
Definition str_of_nat (n : nat) : string :=
  DecimalString.NilZero.string_of_uint (Nat.to_uint n).

(** [enumerate(l, start)] *)
Fixpoint enumerate {A : Type} (start : nat) (l : list A) : list (nat * A) :=
  match l with
  | [] => []
  | a :: l' => (start, a) :: enumerate (S start) l'
  end.

(** Python's [max(a, b)]: [b] when it is the larger one, [a] otherwise. *)
Definition py_max (a b : Qc) : Qc :=
  if Qcleb b a then a else b.

(** ** get_player_input *)

Definition get_player_input (final_df : list Row) (widgets : Widgets)
  : option string * Z * bool :=
  let player_name :=
    St.selectbox (unique (map player final_df)) (player_index widgets) in
  let num_comparisons :=
    nth (count_index widgets) [1; 2; 3; 4; 5]%Z 1%Z in
  let same_position_only := same_position_checked widgets in
  (player_name, num_comparisons, same_position_only).

(** ** display_player_comparison *)

(** [label in df.columns] and [df[label]] for the raw table. *)
Definition frame_column (df : RawFrame) (label : string) : option column :=
  if String.eqb label "player" then option_map TextCol (raw_player df)
  else if String.eqb label "pos" then option_map TextCol (raw_pos df)
  else option_map snd
         (find (fun lc => String.eqb (fst lc) label) (raw_columns df)).

Definition in_columns (label : string) (df : RawFrame) : bool :=
  match frame_column df label with
  | Some _ => true
  | None => false
  end.

Definition getitem (df : RawFrame) (label : string) : outcome column :=
  match frame_column df label with
  | Some c => Done c
  | None => Failed (KeyError label)
  end.

(** [s[mask]]: the entries of a column at the rows a boolean mask
    selects. *)
Definition select_mask {A : Type} (mask : list bool) (s : list A) : list A :=
  map snd (filter fst (combine mask s)).

(** [max(0, 100 - (score_difference * 10))] *)
Definition score_similarity (score_difference : Qc) : Qc :=
  py_max (Q2Qc 0) (Qc_of_Z 100 - score_difference * Qc_of_Z 10)%Qc.

(** The list [key_stats] of the display. *)
Definition key_stats (original_data : RawFrame) : list string :=
  if existsb (fun stat => in_columns stat original_data)
             ["pts"; "reb"; "ast"; "fg_pct"]
  then ["pts"; "reb"; "ast"; "fg_pct"]
  else [].

Local Open Scope page_scope.

(** The third column of an expander: the key statistics of one player. *)
Definition show_key_stats (original_data : RawFrame) (name : string)
  : outcome (list St.element) :=
  for_each
    (fun stat =>
       if in_columns stat original_data then
         names <- getitem original_data "player" ;;
         let mask :=
           map (fun c => match c with
                         | TextCell s => String.eqb s name
                         | NumCell _ => false
                         end) (cells_of names) in
         if empty (select_mask mask (cells_of names)) then Done []
         else
           values <- getitem original_data stat ;;
           value <- call (iloc0 (select_mask mask (cells_of values))) ;;
           Done [St.write [St.Str ("**" ++ upper stat ++ ":** ")%string;
                           St.Cell value]]
       else Done [])
    (firstn 3 (key_stats original_data)).

Definition display_player_comparison (final_df : list Row)
    (original_data : RawFrame) (target_player : string)
    (similar_players : list SimilarRow) (same_position_only : bool)
  : outcome (list St.element) :=
  let position_text :=
    if same_position_only then " (Same Position)" else "" in
  let header :=
    St.subheader
      ("Players Similar to " ++ target_player ++ position_text)%string in
  target_info <-
    call (iloc0 (filter (fun r => String.eqb (player r) target_player)
                        final_df)) ;;
  let target_metrics :=
    St.columns
      [ [St.metric "Target Player" (St.Str target_player)];
        [St.metric "Position" (St.Str (pos target_info))];
        [St.metric "Career Score"
                   (St.Fixed 2 (career_score target_info))] ] in
  if negb (empty similar_players) then
    expanders <-
      for_each
        (fun enumerated =>
           let idx := fst enumerated in
           let player_row := sim_row (snd enumerated) in
           let score_difference := score_difference (snd enumerated) in
           let score_similarity := score_similarity score_difference in
           col3 <- show_key_stats original_data (player player_row) ;;
           Done
             [St.expander
                (str_of_nat idx ++ ". " ++ player player_row
                 ++ " - " ++ pos player_row)%string
                [St.columns
                   [ [St.write [St.Str ("**Position:** "
                                        ++ pos player_row)%string];
                      St.write [St.Str "**Career Score:** ";
                                St.Fixed 2 (career_score player_row)]];
                     [St.write [St.Str "**Score Difference:** ";
                                St.Fixed 2 score_difference];
                      St.write [St.Str "**Score Similarity:** ";
                                St.Fixed 1 score_similarity;
                                St.Str "%"]];
                     col3 ]]])
        (enumerate 1 similar_players) ;;
    Done ([header; target_metrics;
           St.write [St.Str "### Similar Players (by Career Score):"]]
          ++ expanders)
  else
    let warning_msg := "No players found with similar career scores" in
    warning_msg <-
      (if same_position_only then
         target_pos <-
           call (iloc0
                   (map pos
                      (filter (fun r => String.eqb (player r) target_player)
                              final_df))) ;;
         Done (warning_msg ++ " in the " ++ target_pos ++ " position")%string
       else Done warning_msg) ;;
    Done [header; target_metrics; St.warning (warning_msg ++ ".")%string].

(** ** The button "Find Similar Players" *)

(** A selectbox without options yields [None], which no name equals: the
    query returns the empty frame and the display indexes an empty
    selection. *)
Definition on_find_similar (final_df : list Row) (original_data : RawFrame)
    (widgets : Widgets) : outcome (list St.element) :=
  let '(player_name, num_comparisons, same_position_only) :=
    get_player_input final_df widgets in
  match player_name with
  | None => Failed (Python IndexError)
  | Some player_name =>
      similar_players <-
        call (find_similar_players final_df player_name num_comparisons
                                   same_position_only) ;;
      display_player_comparison final_df original_data player_name
                                similar_players same_position_only
  end.

Local Close Scope page_scope.

(** ** The dataset statistics *)

(** [len(final_df)] and [len(final_df.columns)] *)
Definition total_players (final_df : FinalFrame) : nat :=
  length (f_player final_df).

Definition available_columns (final_df : FinalFrame) : nat :=
  2 + length (f_stats final_df) + 1.

(** [final_df['pos'].value_counts()], on a ['pos'] column without missing
    cells. *)
Definition pos_counts (final_df : FinalFrame) : list (string * nat) :=
  value_counts (map Some (f_pos final_df)).

(** [final_df.nlargest(10, 'Career Score')[['player', 'pos',
    'Career Score']]] *)
Definition top_players (final_df : list Row) : list (string * string * Qc) :=
  map (fun r => (player r, pos r, career_score r))
      (nlargest career_score 10 final_df).

(** ** Vocabulary of the page statements *)

(** What one key statistic of one player shows. *)
Definition key_stat_shown (original_data : RawFrame) (row : nat)
    (stat : string) (e : St.element) : Prop :=
  exists col c,
    frame_column original_data stat = Some col
    /\ nth_error (cells_of col) row = Some c
    /\ e = St.write [St.Str ("**" ++ upper stat ++ ":** ")%string; St.Cell c].

(** The label of the expander of the [idx]-th result. *)
Definition expander_label (idx : nat) (s : SimilarRow) : string :=
  (str_of_nat idx ++ ". " ++ player (sim_row s) ++ " - "
   ++ pos (sim_row s))%string.

(** The two elements every display starts with, for a target whose first
    row is [t0]. *)
Definition target_header (target_player : string)
    (same_position_only : bool) : St.element :=
  St.subheader
    ("Players Similar to " ++ target_player
     ++ (if same_position_only then " (Same Position)" else ""))%string.

Definition target_metrics (target_player : string) (t0 : Row)
  : St.element :=
  St.columns
    [ [St.metric "Target Player" (St.Str target_player)];
      [St.metric "Position" (St.Str (pos t0))];
      [St.metric "Career Score" (St.Fixed 2 (career_score t0))] ].

(** ** More sample tables *)

(** Three players, the first and the last with the same statistics. *)
Definition twin_raw : RawFrame :=
  mkRaw (Some ["A"; "B"; "C"]) (Some ["G"; "F"; "G"])
        [ ("pts", NumCol [Some (Qc_of_Z 1); Some (Qc_of_Z 3);
                          Some (Qc_of_Z 1)]);
          ("reb", NumCol [Some (Qc_of_Z 2); Some (Qc_of_Z 6);
                          Some (Qc_of_Z 2)]) ].

Definition twin_final : FinalFrame :=
  final_frame sqrt_floor twin_raw ["A"; "B"; "C"].

(** The sidebar with the second player, the third count and the filter
    on. *)
Definition sample_widgets : Widgets := mkWidgets 1 2 true.

(** ** Comparisons on [Qc] *)

Lemma Qcleb_true (x y : Qc) : Qcleb x y = true <-> (x <= y)%Qc.
Proof. unfold Qcleb, Qcle. apply Qle_bool_iff. Qed.

Lemma Qcleb_false (x y : Qc) : Qcleb x y = false -> (y < x)%Qc.
Proof.
  intros H. apply Qcnot_le_lt. intros Hle.
  apply Qcleb_true in Hle. congruence.
Qed.

Lemma Qceqb_true (x y : Qc) : Qceqb x y = true <-> x = y.
Proof.
  unfold Qceqb. rewrite Qeq_bool_iff. split.
  - apply Qc_is_canon.
  - intros ->. reflexivity.
Qed.

Lemma by_difference_trans : forall a b c,
  by_difference a b -> by_difference b c -> by_difference a c.
Proof. unfold by_difference. intros a b c. apply Qcle_trans. Qed.

(** ** Sorting *)

Section SortFacts.

Variable A : Type.
Variable key : A -> Qc.

Lemma insert_row_perm (x : A) (l : list A) :
  Permutation (insert_row key x l) (x :: l).
Proof.
  induction l as [|y l IH]; simpl.
  - apply Permutation_refl.
  - destruct (Qcleb (key x) (key y)).
    + apply Permutation_refl.
    + eapply perm_trans; [apply perm_skip, IH | apply perm_swap].
Qed.

Lemma sort_values_perm (l : list A) : Permutation (sort_values key l) l.
Proof.
  induction l as [|x l IH]; simpl.
  - constructor.
  - eapply perm_trans; [apply insert_row_perm | apply perm_skip, IH].
Qed.

Lemma sort_values_length (l : list A) :
  length (sort_values key l) = length l.
Proof. apply Permutation_length, sort_values_perm. Qed.

Lemma insert_row_hd (x a : A) (l : list A) :
  (key_le key) a x -> HdRel (key_le key) a l -> HdRel (key_le key) a (insert_row key x l).
Proof.
  intros Hax Hl. destruct l as [|y l]; simpl.
  - constructor. exact Hax.
  - destruct (Qcleb (key x) (key y)); constructor.
    + exact Hax.
    + inversion Hl; assumption.
Qed.

Lemma insert_row_sorted (x : A) (l : list A) :
  Sorted (key_le key) l -> Sorted (key_le key) (insert_row key x l).
Proof.
  induction 1 as [|y l Hs IH Hhd]; simpl.
  - repeat constructor.
  - destruct (Qcleb (key x) (key y)) eqn:E.
    + constructor.
      * constructor; assumption.
      * constructor. apply Qcleb_true. exact E.
    + constructor.
      * exact IH.
      * apply insert_row_hd; [|exact Hhd].
        apply Qclt_le_weak, Qcleb_false, E.
Qed.

Lemma sort_values_sorted (l : list A) : Sorted (key_le key) (sort_values key l).
Proof.
  induction l as [|x l IH]; simpl.
  - constructor.
  - apply insert_row_sorted, IH.
Qed.

Lemma sort_values_strongly_sorted (l : list A) :
  StronglySorted (key_le key) (sort_values key l).
Proof.
  apply Sorted_StronglySorted.
  - intros a b c. unfold key_le. apply Qcle_trans.
  - apply sort_values_sorted.
Qed.

Lemma in_firstn (n : nat) (l : list A) (x : A) :
  In x (firstn n l) -> In x l.
Proof.
  intros H. rewrite <- (firstn_skipn n l). apply in_or_app. left. exact H.
Qed.

Lemma firstn_strongly_sorted (R : A -> A -> Prop) (n : nat) (l : list A) :
  StronglySorted R l -> StronglySorted R (firstn n l).
Proof.
  intros H. revert n. induction H as [|a l Hs IH Hall]; intros [|n]; simpl;
    try constructor.
  - apply IH.
  - rewrite Forall_forall in *. intros x Hx.
    apply Hall. eapply in_firstn; eauto.
Qed.

(** Stability: the rows of one key value keep their order. *)
Lemma insert_row_ties (d : Qc) (x : A) (l : list A) :
  filter (fun r => Qceqb (key r) d) (insert_row key x l)
  = filter (fun r => Qceqb (key r) d) (x :: l).
Proof.
  induction l as [|y l IH]; simpl.
  - reflexivity.
  - destruct (Qcleb (key x) (key y)) eqn:E.
    + reflexivity.
    + simpl. rewrite IH. simpl.
      destruct (Qceqb (key x) d) eqn:Ex; destruct (Qceqb (key y) d) eqn:Ey;
        try reflexivity.
      apply Qceqb_true in Ex, Ey. apply Qcleb_false in E.
      rewrite Ex, Ey in E. exfalso. revert E. apply Qcle_not_lt, Qcle_refl.
Qed.

Lemma sort_values_ties (d : Qc) (l : list A) :
  filter (fun r => Qceqb (key r) d) (sort_values key l)
  = filter (fun r => Qceqb (key r) d) l.
Proof.
  induction l as [|x l IH]; simpl.
  - reflexivity.
  - rewrite insert_row_ties. simpl. rewrite IH. reflexivity.
Qed.

Lemma filter_firstn_prefix (p : A -> bool) (n : nat) (l : list A) :
  exists rest, filter p l = filter p (firstn n l) ++ rest.
Proof.
  exists (filter p (skipn n l)).
  rewrite <- filter_app, firstn_skipn. reflexivity.
Qed.

Lemma nsmallest_strongly_sorted (n : Z) (l : list A) :
  StronglySorted (key_le key) (nsmallest key n l).
Proof.
  unfold nsmallest. destruct (n <=? 0)%Z.
  - constructor.
  - apply firstn_strongly_sorted, sort_values_strongly_sorted.
Qed.

Lemma nsmallest_ties (d : Qc) (n : Z) (l : list A) :
  exists rest,
    filter (fun r => Qceqb (key r) d) l
    = filter (fun r => Qceqb (key r) d) (nsmallest key n l) ++ rest.
Proof.
  unfold nsmallest. destruct (n <=? 0)%Z.
  - exists (filter (fun r => Qceqb (key r) d) l). reflexivity.
  - rewrite <- (sort_values_ties d l). apply filter_firstn_prefix.
Qed.

Lemma nsmallest_incl (n : Z) (l : list A) (x : A) :
  In x (nsmallest key n l) -> In x l.
Proof.
  unfold nsmallest. destruct (n <=? 0)%Z; simpl; [tauto|].
  intros H. apply in_firstn in H.
  eapply Permutation_in; [apply sort_values_perm | exact H].
Qed.

Lemma nsmallest_length (n : Z) (l : list A) :
  (0 < n)%Z -> length (nsmallest key n l) = Nat.min (Z.to_nat n) (length l).
Proof.
  intros Hn. unfold nsmallest.
  destruct (Z.leb_spec n 0); [lia|].
  rewrite length_firstn, sort_values_length. reflexivity.
Qed.

Lemma nsmallest_all (n : Z) (l : list A) :
  (0 < n)%Z -> (length l <= Z.to_nat n)%nat ->
  nsmallest key n l = sort_values key l.
Proof.
  intros Hn Hl. unfold nsmallest.
  destruct (Z.leb_spec n 0); [lia|].
  apply firstn_all2. rewrite sort_values_length. exact Hl.
Qed.

End SortFacts.

(** ** What a query computes *)

Lemma find_hd_filter {A : Type} (f : A -> bool) (l : list A) :
  find f l = hd_error (filter f l).
Proof.
  induction l as [|x l IH]; simpl.
  - reflexivity.
  - destruct (f x); simpl; [reflexivity | exact IH].
Qed.

Lemma filter_filter {A : Type} (p q : A -> bool) (l : list A) :
  filter q (filter p l) = filter (fun x => p x && q x) l.
Proof.
  induction l as [|x l IH]; simpl.
  - reflexivity.
  - destruct (p x); simpl; [destruct (q x)|]; rewrite IH; reflexivity.
Qed.

Lemma nsmallest_nil {A : Type} (key : A -> Qc) (n : Z) :
  nsmallest key n [] = [].
Proof.
  unfold nsmallest. destruct (n <=? 0)%Z; [reflexivity|].
  simpl. apply firstn_nil.
Qed.

Lemma target_row_first (final_df : list Row) (target_player : string)
    (l1 l2 : list Row) (t0 : Row) :
  final_df = l1 ++ t0 :: l2 ->
  (forall r, In r l1 -> player r <> target_player) ->
  player t0 = target_player ->
  target_row final_df target_player = Some t0.
Proof.
  intros -> Hl1 Ht0. unfold target_row.
  induction l1 as [|r l1 IH]; simpl.
  - rewrite Ht0, String.eqb_refl. reflexivity.
  - destruct (String.eqb_spec (player r) target_player) as [E|E].
    + exfalso. apply (Hl1 r); [left; reflexivity | exact E].
    + apply IH. intros r' Hr'. apply Hl1. right. exact Hr'.
Qed.

Lemma target_row_player (final_df : list Row) (target_player : string)
    (t0 : Row) :
  target_row final_df target_player = Some t0 ->
  In t0 final_df /\ player t0 = target_player.
Proof.
  unfold target_row. intros H. apply find_some in H.
  destruct H as [Hin He]. split; [exact Hin|].
  apply String.eqb_eq. exact He.
Qed.

(** The query is total, and returns the first [num_comparisons] candidates
    in ascending stable order of their distance. *)
Lemma find_similar_players_candidates (final_df : list Row)
    (target_player : string) (num_comparisons : Z)
    (same_position_only : bool) :
  find_similar_players final_df target_player num_comparisons
                       same_position_only
  = Ok (nsmallest score_difference num_comparisons
          (candidates final_df target_player same_position_only)).
Proof.
  unfold find_similar_players, candidates, target_row.
  rewrite find_hd_filter.
  destruct (filter (fun r => String.eqb (player r) target_player) final_df)
    as [|t0 rest]; simpl.
  - rewrite nsmallest_nil. reflexivity.
  - destruct same_position_only; simpl.
    + rewrite filter_filter. reflexivity.
    + do 3 f_equal. apply filter_ext. intros r. unfold eligible. simpl.
      rewrite andb_true_r. reflexivity.
Qed.

Lemma candidates_present (final_df : list Row) (target_player : string)
    (same_position_only : bool) (t0 : Row) :
  target_row final_df target_player = Some t0 ->
  candidates final_df target_player same_position_only
  = map (with_difference t0)
        (filter (eligible target_player same_position_only t0) final_df).
Proof. unfold candidates. intros ->. reflexivity. Qed.

Lemma candidates_eligible (final_df : list Row) (target_player : string)
    (same_position_only : bool) (t0 : Row) (s : SimilarRow) :
  target_row final_df target_player = Some t0 ->
  In s (candidates final_df target_player same_position_only) ->
  In (sim_row s) final_df
  /\ eligible target_player same_position_only t0 (sim_row s) = true
  /\ s = with_difference t0 (sim_row s).
Proof.
  intros Ht Hs. rewrite (candidates_present _ _ _ _ Ht) in Hs.
  apply in_map_iff in Hs. destruct Hs as [r [<- Hr]].
  apply filter_In in Hr. destruct Hr as [Hin He]. simpl. auto.
Qed.

Lemma candidates_other_name (final_df : list Row) (target_player : string)
    (same_position_only : bool) (s : SimilarRow) :
  In s (candidates final_df target_player same_position_only) ->
  player (sim_row s) <> target_player.
Proof.
  intros Hs.
  destruct (target_row final_df target_player) as [t0|] eqn:Ht.
  - destruct (candidates_eligible _ _ _ _ _ Ht Hs) as [_ [He _]].
    unfold eligible in He. apply andb_true_iff in He. destruct He as [He _].
    apply negb_true_iff in He. apply String.eqb_neq. exact He.
  - unfold candidates in Hs. rewrite Ht in Hs. destruct Hs.
Qed.

(** ** Properties of find_similar_players *)

(** C1. For a target present in the table, with first row [t0], the query
    returns its rows in non-decreasing order of [score_difference], and
    the returned rows of any one distance [d] are the first candidates of
    that distance in the order of the table: ties keep the order of the
    rows. *)
Theorem find_similar_sorted_stable (final_df : list Row)
    (target_player : string) (num_comparisons : Z)
    (same_position_only : bool) (t0 : Row) :
  target_row final_df target_player = Some t0 ->
  exists res,
    find_similar_players final_df target_player num_comparisons
                         same_position_only = Ok res
    /\ StronglySorted by_difference res
    /\ forall d, exists rest,
         at_difference d
           (map (with_difference t0)
              (filter (eligible target_player same_position_only t0)
                      final_df))
         = at_difference d res ++ rest.
Proof.
  intros Ht. eexists. split; [apply find_similar_players_candidates|].
  rewrite (candidates_present _ _ _ _ Ht). split.
  - apply nsmallest_strongly_sorted.
  - intros d. apply nsmallest_ties.
Qed.

(** C5. Whatever the table, the target, the number asked for and the
    filter flag, no returned row bears the name of the target; in
    particular no row of the target is among the results. *)
Theorem find_similar_excludes_target (final_df : list Row)
    (target_player : string) (num_comparisons : Z)
    (same_position_only : bool) :
  exists res,
    find_similar_players final_df target_player num_comparisons
                         same_position_only = Ok res
    /\ Forall (fun s => player (sim_row s) <> target_player) res
    /\ forall r, In r final_df -> player r = target_player ->
                 ~ In r (map sim_row res).
Proof.
  eexists. split; [apply find_similar_players_candidates|].
  assert (H : forall s,
             In s (nsmallest score_difference num_comparisons
                     (candidates final_df target_player same_position_only))
             -> player (sim_row s) <> target_player).
  { intros s Hs. apply nsmallest_incl in Hs.
    eapply candidates_other_name; eauto. }
  split.
  - apply Forall_forall. exact H.
  - intros r _ Hr Hin. apply in_map_iff in Hin.
    destruct Hin as [s [<- Hs]]. exact (H s Hs Hr).
Qed.

(** C6. For a target present in the table, with first row [t0], and the
    filter on, every returned row has the position of [t0]. *)
Theorem find_similar_same_position (final_df : list Row)
    (target_player : string) (num_comparisons : Z) (t0 : Row) :
  target_row final_df target_player = Some t0 ->
  exists res,
    find_similar_players final_df target_player num_comparisons true = Ok res
    /\ Forall (fun s => pos (sim_row s) = pos t0) res.
Proof.
  intros Ht. eexists. split; [apply find_similar_players_candidates|].
  apply Forall_forall. intros s Hs. apply nsmallest_incl in Hs.
  destruct (candidates_eligible _ _ _ _ _ Ht Hs) as [_ [He _]].
  unfold eligible in He. apply andb_true_iff in He. destruct He as [_ He].
  simpl in He. apply String.eqb_eq. exact He.
Qed.

(** C7. For a positive [num_comparisons] the query returns at most that
    many rows, exactly that many when there are at least as many
    candidates, and otherwise all the candidates and nothing else. *)
Theorem find_similar_count (final_df : list Row) (target_player : string)
    (num_comparisons : Z) (same_position_only : bool) :
  (0 < num_comparisons)%Z ->
  let cands := candidates final_df target_player same_position_only in
  exists res,
    find_similar_players final_df target_player num_comparisons
                         same_position_only = Ok res
    /\ (Z.of_nat (length res) <= num_comparisons)%Z
    /\ ((num_comparisons <= Z.of_nat (length cands))%Z ->
        Z.of_nat (length res) = num_comparisons)
    /\ ((Z.of_nat (length cands) <= num_comparisons)%Z ->
        Permutation res cands /\ length res = length cands).
Proof.
  intros Hk cands. eexists.
  split; [apply find_similar_players_candidates|]. fold cands.
  pose proof (nsmallest_length _ score_difference num_comparisons cands Hk)
    as Hlen.
  repeat split.
  - lia.
  - lia.
  - rewrite nsmallest_all by lia. apply sort_values_perm.
  - lia.
Qed.

(** C8. The query never raises.  It returns the empty result when no row
    bears the name of the target, and when the position filter leaves no
    candidate. *)
Theorem find_similar_empty_results :
  (forall final_df target_player num_comparisons same_position_only,
      exists res,
        find_similar_players final_df target_player num_comparisons
                             same_position_only = Ok res)
  /\ (forall final_df target_player num_comparisons same_position_only,
         (forall r, In r final_df -> player r <> target_player) ->
         find_similar_players final_df target_player num_comparisons
                              same_position_only = Ok [])
  /\ (forall final_df target_player num_comparisons t0,
         target_row final_df target_player = Some t0 ->
         filter (eligible target_player true t0) final_df = [] ->
         find_similar_players final_df target_player num_comparisons true
         = Ok []).
Proof.
  split; [|split].
  - intros. eexists. apply find_similar_players_candidates.
  - intros final_df target_player k sp Hno.
    rewrite find_similar_players_candidates.
    destruct (target_row final_df target_player) as [t0|] eqn:Ht.
    + apply target_row_player in Ht. destruct Ht as [Hin Hp].
      exfalso. exact (Hno t0 Hin Hp).
    + unfold candidates. rewrite Ht, nsmallest_nil. reflexivity.
  - intros final_df target_player k t0 Ht Hnone.
    rewrite find_similar_players_candidates.
    rewrite (candidates_present _ _ _ _ Ht), Hnone. simpl.
    rewrite nsmallest_nil. reflexivity.
Qed.

(** C10. When the table is [l1 ++ t0 :: l2], no row of [l1] bears the
    name of the target and [t0] does (so that [t0] is the first row of
    that name, whatever follows in [l2]), the query returns the nearest
    rows among those of another name, every row of the name left out, with
    the distance and the position filter taken from [t0]. *)
Theorem find_similar_duplicate_names (l1 l2 : list Row) (t0 : Row)
    (target_player : string) (num_comparisons : Z)
    (same_position_only : bool) :
  (forall r, In r l1 -> player r <> target_player) ->
  player t0 = target_player ->
  let final_df := l1 ++ t0 :: l2 in
  exists res,
    find_similar_players final_df target_player num_comparisons
                         same_position_only = Ok res
    /\ res = nsmallest score_difference num_comparisons
               (map (with_difference t0)
                  (filter (fun r =>
                             negb (String.eqb (player r) target_player)
                             && (negb same_position_only
                                 || String.eqb (pos r) (pos t0)))
                          final_df))
    /\ (forall r, In r final_df -> player r = target_player ->
                  ~ In r (map sim_row res))
    /\ Forall (fun s =>
                 score_difference s
                 = Qcabs (career_score (sim_row s) - career_score t0)
                 /\ (same_position_only = true ->
                     pos (sim_row s) = pos t0)) res.
Proof.
  intros Hl1 Ht0 final_df.
  assert (Ht : target_row final_df target_player = Some t0).
  { apply (target_row_first final_df target_player l1 l2 t0);
      [reflexivity | exact Hl1 | exact Ht0]. }
  eexists. split; [apply find_similar_players_candidates|].
  rewrite (candidates_present _ _ _ _ Ht).
  split; [reflexivity|].
  assert (H : forall s,
             In s (nsmallest score_difference num_comparisons
                     (map (with_difference t0)
                        (filter (eligible target_player same_position_only t0)
                                final_df)))
             -> In s (candidates final_df target_player same_position_only)).
  { intros s Hs. apply nsmallest_incl in Hs.
    rewrite (candidates_present _ _ _ _ Ht). exact Hs. }
  split.
  - intros r _ Hr Hin. apply in_map_iff in Hin.
    destruct Hin as [s [<- Hs]].
    exact (candidates_other_name _ _ _ _ (H s Hs) Hr).
  - apply Forall_forall. intros s Hs.
    destruct (candidates_eligible _ _ _ _ _ Ht (H s Hs)) as [_ [He Hd]].
    split.
    + rewrite Hd at 1. reflexivity.
    + intros ->. unfold eligible in He. apply andb_true_iff in He.
      destruct He as [_ He]. simpl in He. apply String.eqb_eq. exact He.
Qed.

(** ** Sums, means and variances *)

Local Open Scope Qc_scope.

Lemma Qc_of_nat_succ (n : nat) : Qc_of_nat (S n) = Qc_of_nat n + 1.
Proof.
  unfold Qc_of_nat, Qcplus. apply Q2Qc_eq_iff.
  rewrite Nat2Z.inj_succ. unfold Z.succ. rewrite inject_Z_plus.
  unfold Q2Qc. cbn [this]. rewrite !Qred_correct. reflexivity.
Qed.

Lemma Qc_of_nat_nonzero (n : nat) : n <> O -> Qc_of_nat n <> 0.
Proof.
  intros Hn H. unfold Qc_of_nat in H. apply Q2Qc_eq_iff in H.
  unfold Qeq in H. simpl in H. lia.
Qed.

Lemma Qcsum_repeat (v : Qc) (n : nat) :
  Qcsum (repeat v n) = Qc_of_nat n * v.
Proof.
  induction n as [|n IH].
  - change (0 = 0 * v). ring.
  - rewrite Qc_of_nat_succ.
    change (v + Qcsum (repeat v n) = (Qc_of_nat n + 1) * v).
    rewrite IH. ring.
Qed.


Lemma Qcsum_perm (xs ys : list Qc) :
  Permutation xs ys -> Qcsum xs = Qcsum ys.
Proof.
  induction 1 as [|x xs ys _ IH|x y xs|xs ys zs _ IH1 _ IH2].
  - reflexivity.
  - change (x + Qcsum xs = x + Qcsum ys). rewrite IH. reflexivity.
  - change (y + (x + Qcsum xs) = x + (y + Qcsum xs)). ring.
  - congruence.
Qed.

Lemma dropna_perm (s s' : list (option Qc)) :
  Permutation s s' -> Permutation (dropna s) (dropna s').
Proof.
  induction 1 as [|c s s' _ IH|c c' s|s s' s'' _ IH1 _ IH2]; simpl.
  - constructor.
  - destruct c; [apply perm_skip|]; exact IH.
  - destruct c, c'; try apply Permutation_refl. apply perm_swap.
  - eapply perm_trans; eauto.
Qed.



Lemma mean_present (s : list (option Qc)) (x : Qc) (xs : list Qc) :
  dropna s = x :: xs ->
  mean s = Some (Qcsum (x :: xs) / Qc_of_nat (length (x :: xs))).
Proof. unfold mean. intros ->. reflexivity. Qed.

Lemma mean_perm (s s' : list (option Qc)) :
  Permutation s s' -> mean s = mean s'.
Proof.
  intros H. apply dropna_perm in H. unfold mean.
  pose proof (Qcsum_perm _ _ H) as Hs.
  pose proof (Permutation_length H) as Hl.
  destruct (dropna s) as [|x xs]; destruct (dropna s') as [|y ys];
    try discriminate; [reflexivity|].
  rewrite Hs, Hl. reflexivity.
Qed.

Lemma variance_perm (s s' : list (option Qc)) :
  Permutation s s' -> variance s = variance s'.
Proof.
  intros H. unfold variance. rewrite (mean_perm _ _ H).
  destruct (mean s') as [mu|]; [|reflexivity].
  apply mean_perm, Permutation_map, H.
Qed.

Lemma mean_repeat (v : Qc) (n : nat) :
  n <> O -> mean (repeat (Some v) n) = Some v.
Proof.
  intros Hn.
  assert (E : dropna (repeat (Some v) n) = repeat v n).
  { clear Hn. induction n as [|n IH]; simpl; [reflexivity|].
    rewrite IH. reflexivity. }
  destruct n as [|n]; [congruence|].
  rewrite (mean_present _ v (repeat v n) E).
  change (v :: repeat v n) with (repeat v (S n)).
  rewrite Qcsum_repeat, repeat_length. f_equal.
  field. apply Qc_of_nat_nonzero. discriminate.
Qed.


Section Normalizer.

(** [np.sqrt] *)
Variable sqrt : Qc -> Qc.

(** With exact arithmetic a constant column is normalised to 0. *)
Lemma standardize_constant (v : Qc) (n : nat) :
  standardize sqrt (repeat (Some v) n) = repeat (Some 0) n.
Proof.
  destruct n as [|n]; [reflexivity|].
  assert (Hn : S n <> O) by discriminate.
  unfold standardize, variance. rewrite (mean_repeat v _ Hn).
  rewrite map_repeat. cbn [option_map]. rewrite (mean_repeat _ _ Hn).
  rewrite map_repeat. cbn [option_map]. f_equal. f_equal.
  replace ((v - v) * (v - v)) with 0 by ring.
  unfold scale_of. change (Qceqb 0 0) with true. cbv iota.
  field. apply Q_apart_0_1.
Qed.



Lemma standardize_length (s : list (option Qc)) :
  length (standardize sqrt s) = length s.
Proof.
  unfold standardize.
  destruct (mean s); [destruct (variance s)|]; apply length_map.
Qed.

Lemma standardize_perm_stats (s s' : list (option Qc)) :
  Permutation s s' ->
  mean s = mean s' /\ variance s = variance s'.
Proof. intros H. split; [apply mean_perm | apply variance_perm]; exact H. Qed.
Lemma fillna_length (s : list (option Qc)) (m : option Qc) :
  length (fillna s m) = length s.
Proof. destruct m; simpl; [apply length_map | reflexivity]. Qed.

Lemma combine_fst_map {A B C : Type} (f : B -> C) (l : list (A * B)) :
  combine (map fst l) (map f (map snd l)) = map (fun ab => (fst ab, f (snd ab))) l.
Proof.
  induction l as [|[a b] l IH]; simpl; [reflexivity|].
  rewrite IH. reflexivity.
Qed.

Lemma fit_transform_ok (n : nat) (X : list (list (option Qc))) :
  n <> O -> X <> [] -> fit_transform sqrt n X = Ok (map (standardize sqrt) X).
Proof.
  intros Hn HX. destruct n as [|n]; [congruence|].
  destruct X as [|c X]; [congruence|]. reflexivity.
Qed.

Lemma fit_transform_inv (n : nat) (X Y : list (list (option Qc))) :
  fit_transform sqrt n X = Ok Y -> n <> O /\ X <> [].
Proof.
  destruct n as [|n]; [discriminate|].
  destruct X as [|c X]; [discriminate|].
  intros _. split; discriminate.
Qed.

Lemma load_frame (nba_data : RawFrame) (players : list string) :
  raw_player nba_data = Some players ->
  players <> [] ->
  select_dtypes_number (raw_columns nba_data) <> [] ->
  exists original_data,
    load_and_process_data sqrt nba_data
    = Some (final_frame sqrt nba_data players, original_data).
Proof.
  intros Hp Hrows Hcols. unfold load_and_process_data. rewrite Hp.
  assert (Hn : length players <> O).
  { destruct players; [congruence | discriminate]. }
  assert (HX : map snd
                 (map (fun lc : string * list (option Qc) =>
                         (fst lc, fillna (snd lc) (mean (snd lc))))
                      (select_dtypes_number (raw_columns nba_data))) <> []).
  { destruct (select_dtypes_number (raw_columns nba_data));
      [congruence | discriminate]. }
  unfold final_frame, normalized_columns, normalize_column.
  destruct (raw_pos nba_data) as [ps|] eqn:Epos; cbn [raw_pos raw_columns];
    [rewrite Epos|]; rewrite (fit_transform_ok _ _ Hn HX);
    rewrite combine_fst_map, map_map; cbn [fst snd];
    eexists; reflexivity.
Qed.

Lemma load_inv (nba_data : RawFrame) (fd : FinalFrame)
    (original_data : RawFrame) :
  load_and_process_data sqrt nba_data = Some (fd, original_data) ->
  exists players,
    raw_player nba_data = Some players
    /\ players <> []
    /\ select_dtypes_number (raw_columns nba_data) <> []
    /\ fd = final_frame sqrt nba_data players.
Proof.
  intros H.
  destruct (raw_player nba_data) as [players|] eqn:Hp.
  - assert (Hne : players <> []
                  /\ select_dtypes_number (raw_columns nba_data) <> []).
    { unfold load_and_process_data in H. rewrite Hp in H.
      destruct (fit_transform sqrt (length players) _) as [Y|e] eqn:Ef
        in H; [|discriminate].
      apply fit_transform_inv in Ef. destruct Ef as [Hn HX]. split.
      - intros ->. apply Hn. reflexivity.
      - intros E. apply HX.
        destruct (raw_pos nba_data); cbn [raw_columns]; rewrite E;
          reflexivity. }
    destruct Hne as [Hrows Hcols].
    exists players. repeat split; try assumption.
    destruct (load_frame nba_data players Hp Hrows Hcols) as [od Hod].
    rewrite H in Hod. congruence.
  - unfold load_and_process_data in H. rewrite Hp in H. discriminate.
Qed.

(** On finite numbers the load step returns a table exactly when the raw
    table has a ['player'] column, at least one row and at least one
    numeric column. *)
Lemma load_succeeds_iff (nba_data : RawFrame) :
  (exists fd original_data,
      load_and_process_data sqrt nba_data = Some (fd, original_data))
  <-> (exists players,
          raw_player nba_data = Some players
          /\ players <> []
          /\ select_dtypes_number (raw_columns nba_data) <> []).
Proof.
  split.
  - intros [fd [od H]]. apply load_inv in H.
    destruct H as [players [Hp [Hrows [Hcols _]]]].
    exists players. auto.
  - intros [players [Hp [Hrows Hcols]]].
    destruct (load_frame nba_data players Hp Hrows Hcols) as [od H].
    eexists. exists od. exact H.
Qed.
(** X1. The load step returns no table when the raw table lacks the
    ['player'] column, has no row, or has no numeric column. *)
Theorem load_fails_without_input (nba_data : RawFrame) :
  raw_player nba_data = None
  \/ raw_player nba_data = Some nil
  \/ select_dtypes_number (raw_columns nba_data) = nil ->
  load_and_process_data sqrt nba_data = None.
Proof.
  intros Hcase.
  destruct (load_and_process_data sqrt nba_data) as [[fd od]|] eqn:E;
    [|reflexivity].
  apply load_inv in E. destruct E as [players [Hp [Hrows [Hcols _]]]].
  destruct Hcase as [H|[H|H]]; congruence.
Qed.

Lemma Qcsum_cons (x : Qc) (xs : list Qc) : Qcsum (x :: xs) = x + Qcsum xs.
Proof. reflexivity. Qed.

Lemma add_column_length (acc : list Qc) (col : list (option Qc)) :
  length acc = length col -> length (add_column acc col) = length acc.
Proof.
  intros H. unfold add_column. rewrite length_map, length_combine, <- H.
  apply Nat.min_id.
Qed.

Lemma add_column_nth (acc : list Qc) (col : list (option Qc)) (i : nat) :
  length acc = length col -> (i < length acc)%nat ->
  nth i (add_column acc col) 0 = nth i acc 0 + skipna (nth i col None).
Proof.
  intros Hlen Hi. unfold add_column.
  rewrite (nth_indep _ 0 (fst (0, @None Qc) + skipna (snd (0, @None Qc)))).
  - rewrite (map_nth (fun ac => fst ac + skipna (snd ac))).
    rewrite combine_nth by exact Hlen. reflexivity.
  - rewrite length_map, length_combine, <- Hlen, Nat.min_id. exact Hi.
Qed.

Lemma fold_add_column (n : nat) (cols : list (list (option Qc))) :
  Forall (fun c => length c = n) cols ->
  forall acc, length acc = n ->
    length (fold_left add_column cols acc) = n
    /\ forall i, (i < n)%nat ->
         nth i (fold_left add_column cols acc) 0
         = nth i acc 0 + Qcsum (map (fun c => skipna (nth i c None)) cols).
Proof.
  induction 1 as [|c cols Hc _ IH]; intros acc Hacc; cbn [fold_left map].
  - split; [exact Hacc|]. intros i _. change (Qcsum []) with 0. ring.
  - assert (Hlen : length acc = length c) by congruence.
    destruct (IH (add_column acc c)) as [IHl IHn].
    { rewrite add_column_length; assumption. }
    split; [exact IHl|]. intros i Hi.
    rewrite IHn by exact Hi.
    rewrite add_column_nth; [|exact Hlen|rewrite Hacc; exact Hi].
    rewrite Qcsum_cons. ring.
Qed.

Lemma sum_axis1_length (n : nat) (cols : list (list (option Qc))) :
  Forall (fun c => length c = n) cols -> length (sum_axis1 n cols) = n.
Proof.
  intros H. apply (fold_add_column n cols H). apply repeat_length.
Qed.

Lemma sum_axis1_nth (n : nat) (cols : list (list (option Qc))) (i : nat) :
  Forall (fun c => length c = n) cols -> (i < n)%nat ->
  nth i (sum_axis1 n cols) 0
  = Qcsum (map (fun c => skipna (nth i c None)) cols).
Proof.
  intros H Hi. unfold sum_axis1.
  destruct (fold_add_column n cols H (repeat 0 n) (repeat_length _ _))
    as [_ Hn].
  rewrite (Hn i Hi), nth_repeat. ring.
Qed.


Lemma row_sum_map_snd (i : nat) (cols : list (string * list (option Qc))) :
  Qcsum (map (fun c => skipna (nth i c None)) (map snd cols)) = row_sum i cols.
Proof. unfold row_sum. rewrite map_map. reflexivity. Qed.

Lemma select_dtypes_number_In (cols : list (string * column))
    (label : string) (v : list (option Qc)) :
  In (label, v) (select_dtypes_number cols) <-> In (label, NumCol v) cols.
Proof.
  induction cols as [|[l [t|w]] cols IH]; simpl.
  - tauto.
  - rewrite IH. split; [tauto|]. intros [H|H]; [discriminate | exact H].
  - rewrite IH. split; intros [H|H]; try (right; exact H);
      left; congruence.
Qed.

Lemma rectangular_numeric (nba_data : RawFrame) (n : nat) :
  rectangular nba_data n ->
  Forall (fun lc => length (snd lc) = n)
         (select_dtypes_number (raw_columns nba_data)).
Proof.
  intros [_ [_ H]]. rewrite Forall_forall in *. intros [l v] Hin.
  apply select_dtypes_number_In in Hin. exact (H _ Hin).
Qed.

Lemma normalize_column_length (s : list (option Qc)) :
  length (normalize_column sqrt s) = length s.
Proof.
  unfold normalize_column. rewrite standardize_length. apply fillna_length.
Qed.

Lemma normalized_columns_length (nba_data : RawFrame) (n : nat) :
  rectangular nba_data n ->
  Forall (fun lc => length (snd lc) = n) (normalized_columns sqrt nba_data).
Proof.
  intros H. apply rectangular_numeric in H. unfold normalized_columns.
  rewrite Forall_forall in *. intros lc Hin. apply in_map_iff in Hin.
  destruct Hin as [lc0 [<- Hin0]]. simpl.
  rewrite normalize_column_length. exact (H _ Hin0).
Qed.

Lemma final_frame_career (nba_data : RawFrame) (players : list string)
    (i : nat) :
  rectangular nba_data (length players) -> (i < length players)%nat ->
  nth i (f_career (final_frame sqrt nba_data players)) 0
  = row_sum i (normalized_columns sqrt nba_data).
Proof.
  intros Hr Hi. unfold final_frame. cbn [f_career].
  rewrite sum_axis1_nth; [apply row_sum_map_snd | | exact Hi].
  apply Forall_map. apply (normalized_columns_length _ _ Hr).
Qed.




Lemma load_rows (nba_data : RawFrame) (n : nat) (fd : FinalFrame)
    (original_data : RawFrame) :
  rectangular nba_data n ->
  load_and_process_data sqrt nba_data = Some (fd, original_data) ->
  exists players,
    raw_player nba_data = Some players /\ length players = n
    /\ n <> O /\ fd = final_frame sqrt nba_data players.
Proof.
  intros Hr H. apply load_inv in H.
  destruct H as [players [Hp [Hne [_ Hfd]]]].
  exists players. pose proof Hr as [Hlen _].
  repeat split; auto.
  rewrite <- (Hlen _ Hp). destruct players; [congruence | discriminate].
Qed.

(** C2. The table the load step produces from a raw table of [n] rows has
    the ['player'] column of the input, its ['pos'] column (the text
    "Unknown" on every row when the input has none), [n] rows in every
    column, the numeric columns of the input normalised under their
    labels, and a career score that is, on every row, the sum of the
    normalised values of that row. *)
Theorem load_preserves_rows (nba_data : RawFrame) (n : nat)
    (fd : FinalFrame) (original_data : RawFrame) :
  rectangular nba_data n ->
  load_and_process_data sqrt nba_data = Some (fd, original_data) ->
  raw_player nba_data = Some (f_player fd)
  /\ f_pos fd = match raw_pos nba_data with
                | Some p => p
                | None => repeat "Unknown"%string n
                end
  /\ length (f_player fd) = n
  /\ length (f_pos fd) = n
  /\ length (f_career fd) = n
  /\ f_stats fd
     = map (fun lc => (fst lc, normalize_column sqrt (snd lc)))
           (select_dtypes_number (raw_columns nba_data))
  /\ Forall (fun lc => length (snd lc) = n) (f_stats fd)
  /\ forall i, (i < n)%nat ->
       nth i (f_career fd) 0 = row_sum i (f_stats fd).
Proof.
  intros Hr H.
  destruct (load_rows _ _ _ _ Hr H) as [players [Hp [Hn [_ ->]]]].
  subst n. unfold final_frame at 1 2 3 4 5 6 7. cbn [f_player f_pos f_stats f_career].
  split; [exact Hp|]. split; [reflexivity|]. split; [reflexivity|].
  split.
  { destruct (raw_pos nba_data) as [p|] eqn:Ep.
    - destruct Hr as [_ [Hpos _]]. apply Hpos. exact Ep.
    - apply repeat_length. }
  split.
  { apply sum_axis1_length, Forall_map.
    apply (normalized_columns_length _ _ Hr). }
  split; [reflexivity|]. split.
  { apply (normalized_columns_length _ _ Hr). }
  intros i Hi. apply (final_frame_career _ _ _ Hr Hi).
Qed.


Lemma dropna_nil_iff (s : list (option Qc)) :
  dropna s = [] <-> forall c, In c s -> c = None.
Proof.
  induction s as [|[x|] s IH]; simpl.
  - split; [intros _ c [] | reflexivity].
  - split; [discriminate|]. intros H.
    specialize (H (Some x) (or_introl eq_refl)). discriminate.
  - rewrite IH. split.
    + intros H c [<-|Hc]; [reflexivity | exact (H c Hc)].
    + intros H c Hc. apply H. right. exact Hc.
Qed.




End Normalizer.

Section TakeFacts.
Variable A : Type.

Lemma take_length (d : A) (idx : list nat) (s : list A) :
  length (take d idx s) = length idx.
Proof. apply length_map. Qed.

Lemma take_seq (d : A) (s : list A) : take d (seq 0 (length s)) s = s.
Proof.
  unfold take. induction s as [|a s IH]; [reflexivity|].
  cbn [length seq map nth]. rewrite <- seq_shift, map_map.
  cbn [nth]. rewrite IH. reflexivity.
Qed.

Lemma take_perm (d : A) (idx : list nat) (s : list A) :
  Permutation idx (seq 0 (length s)) -> Permutation (take d idx s) s.
Proof.
  intros H. rewrite <- (take_seq d s) at 2.
  unfold take. apply Permutation_map. exact H.
Qed.

Lemma perm_seq_bound (idx : list nat) (n : nat) :
  Permutation idx (seq 0 n) -> Forall (fun i => (i < n)%nat) idx.
Proof.
  intros H. apply Forall_forall. intros i Hi.
  apply (Permutation_in _ H) in Hi. apply in_seq in Hi. lia.
Qed.

Lemma take_map (B : Type) (f : A -> B) (d : A) (d' : B) (idx : list nat)
    (s : list A) :
  Forall (fun i => (i < length s)%nat) idx ->
  take d' idx (map f s) = map f (take d idx s).
Proof.
  intros H. unfold take. rewrite map_map. apply map_ext_in.
  intros i Hi. rewrite Forall_forall in H.
  rewrite (nth_indep _ d' (f d)) by (rewrite length_map; apply H, Hi).
  apply map_nth.
Qed.

Lemma take_nth (d : A) (idx : list nat) (s : list A) (j : nat) :
  (j < length idx)%nat ->
  nth j (take d idx s) d = nth (nth j idx O) s d.
Proof.
  intros Hj. unfold take.
  rewrite (nth_indep _ d (nth O s d)) by (rewrite length_map; exact Hj).
  apply (map_nth (fun i => nth i s d)).
Qed.
End TakeFacts.

Section RowOrder.
Variable sqrt : Qc -> Qc.
Variable idx : list nat.
Variable n : nat.
Hypothesis Hidx : Permutation idx (seq 0 n).

Lemma standardize_take (s : list (option Qc)) :
  length s = n ->
  standardize sqrt (take None idx s) = take None idx (standardize sqrt s).
Proof.
  intros Hlen.
  assert (Hp : Permutation (take None idx s) s).
  { apply take_perm. rewrite Hlen. exact Hidx. }
  assert (Hb : Forall (fun i => (i < length s)%nat) idx).
  { rewrite Hlen. apply perm_seq_bound, Hidx. }
  unfold standardize.
  rewrite (mean_perm _ _ Hp), (variance_perm _ _ Hp).
  destruct (mean s) as [mu|]; [destruct (variance s) as [var|]|];
    symmetry; (rewrite (take_map _ _ _ None) by exact Hb); reflexivity.
Qed.

Lemma fillna_take (s : list (option Qc)) (m : option Qc) :
  length s = n ->
  fillna (take None idx s) m = take None idx (fillna s m).
Proof.
  intros Hlen. destruct m as [v|]; [|reflexivity]. unfold fillna.
  symmetry. apply take_map. rewrite Hlen. apply perm_seq_bound, Hidx.
Qed.

Lemma normalize_column_take (s : list (option Qc)) :
  length s = n ->
  normalize_column sqrt (take None idx s)
  = take None idx (normalize_column sqrt s).
Proof.
  intros Hlen. unfold normalize_column.
  assert (Hp : Permutation (take None idx s) s).
  { apply take_perm. rewrite Hlen. exact Hidx. }
  rewrite (mean_perm _ _ Hp), fillna_take by exact Hlen.
  apply standardize_take. rewrite fillna_length. exact Hlen.
Qed.

Lemma select_dtypes_number_take (cols : list (string * column)) :
  select_dtypes_number
    (map (fun lc => (fst lc, take_column idx (snd lc))) cols)
  = map (fun lc => (fst lc, take None idx (snd lc)))
        (select_dtypes_number cols).
Proof.
  induction cols as [|[l [t|v]] cols IH]; simpl; [reflexivity|exact IH|].
  rewrite IH. reflexivity.
Qed.

Lemma normalized_columns_take (nba_data : RawFrame) :
  rectangular nba_data n ->
  normalized_columns sqrt (take_rows idx nba_data)
  = map (fun lc => (fst lc, take None idx (snd lc)))
        (normalized_columns sqrt nba_data).
Proof.
  intros Hr. apply rectangular_numeric in Hr.
  unfold normalized_columns, take_rows. cbn [raw_columns].
  rewrite select_dtypes_number_take, !map_map. apply map_ext_in.
  intros [l v] Hin. cbn [fst snd]. f_equal.
  apply normalize_column_take.
  rewrite Forall_forall in Hr. exact (Hr _ Hin).
Qed.

Lemma sum_axis1_take (cols : list (string * list (option Qc))) :
  Forall (fun lc => length (snd lc) = n) cols ->
  sum_axis1 n
    (map snd (map (fun lc => (fst lc, take None idx (snd lc))) cols))
  = take 0 idx (sum_axis1 n (map snd cols)).
Proof.
  intros Hc.
  assert (Hlen : length idx = n).
  { rewrite (Permutation_length Hidx). apply length_seq. }
  assert (Hb : Forall (fun i => (i < n)%nat) idx)
    by apply perm_seq_bound, Hidx.
  assert (Hc1 : Forall (fun c => length c = n) (map snd cols)).
  { apply Forall_map. exact Hc. }
  assert (Hc2 : Forall (fun c => length c = n)
                  (map snd (map (fun lc => (fst lc, take None idx (snd lc)))
                                cols))).
  { rewrite map_map. apply Forall_map. apply Forall_forall.
    intros lc _. cbn [snd]. rewrite take_length. exact Hlen. }
  apply (nth_ext _ _ 0 0).
  - rewrite take_length, sum_axis1_length by exact Hc2. congruence.
  - rewrite sum_axis1_length by exact Hc2. intros j Hj.
    rewrite take_nth by lia.
    assert (Hij : (nth j idx O < n)%nat).
    { rewrite Forall_forall in Hb. apply Hb, nth_In. lia. }
    rewrite !sum_axis1_nth by assumption.
    rewrite !map_map. f_equal. apply map_ext. intros lc. cbn [snd].
    rewrite take_nth by lia. reflexivity.
Qed.

(** With exact arithmetic in place of float64, every row keeps its career
    score when the rows are rearranged: means and variances do not depend
    on the order in which the values are added up. *)
Lemma career_score_row_order_exact (nba_data : RawFrame) (fd : FinalFrame)
    (original_data : RawFrame) :
  rectangular nba_data n ->
  load_and_process_data sqrt nba_data = Some (fd, original_data) ->
  exists fd' original_data',
    load_and_process_data sqrt (take_rows idx nba_data)
    = Some (fd', original_data')
    /\ f_player fd' = take ""%string idx (f_player fd)
    /\ f_career fd' = take 0 idx (f_career fd).
Proof.
  intros Hr H.
  destruct (load_rows sqrt _ _ _ _ Hr H) as [players [Hp [Hn [Hn0 ->]]]].
  apply load_inv in H. destruct H as [_ [_ [_ [Hcols _]]]].
  assert (Hlen : length idx = n).
  { rewrite (Permutation_length Hidx). apply length_seq. }
  destruct (load_frame sqrt (take_rows idx nba_data)
                       (take ""%string idx players)) as [od' Hod'].
  - unfold take_rows. cbn [raw_player]. rewrite Hp. reflexivity.
  - intros E. apply (f_equal (@length _)) in E.
    rewrite take_length in E. simpl in E. congruence.
  - unfold take_rows. cbn [raw_columns].
    rewrite select_dtypes_number_take.
    destruct (select_dtypes_number (raw_columns nba_data));
      [congruence | discriminate].
  - exists (final_frame sqrt (take_rows idx nba_data)
                        (take ""%string idx players)), od'.
    split; [exact Hod'|]. split; [reflexivity|].
    unfold final_frame. cbn [f_career].
    rewrite take_length, Hlen, Hn.
    rewrite (normalized_columns_take _ Hr).
    apply sum_axis1_take, normalized_columns_length, Hr.
Qed.



End RowOrder.

(** ** The sample tables, evaluated *)

Local Close Scope Qc_scope.

Example four_players_any_position :
  display (find_similar_players four_players "A" 2 false)
  = Some [("B", "G", 9 # 1, 1 # 1); ("C", "F", 7 # 1, 3 # 1)].
Proof. vm_compute. reflexivity. Qed.

Example four_players_same_position :
  display (find_similar_players four_players "A" 2 true)
  = Some [("B", "G", 9 # 1, 1 # 1)].
Proof. vm_compute. reflexivity. Qed.

Example four_players_shortage :
  display (find_similar_players four_players "A" 5 false)
  = Some [("B", "G", 9 # 1, 1 # 1); ("C", "F", 7 # 1, 3 # 1);
          ("D", "F", 15 # 1, 5 # 1)].
Proof. vm_compute. reflexivity. Qed.

Example four_players_unknown_name :
  find_similar_players four_players "Z" 3 false = Ok [].
Proof. reflexivity. Qed.

Example tied_players_first_two :
  display (find_similar_players tied_players "A" 2 false)
  = Some [("B", "F", 11 # 1, 1 # 1); ("C", "G", 9 # 1, 1 # 1)].
Proof. vm_compute. reflexivity. Qed.

Example tied_players_same_position :
  display (find_similar_players tied_players "A" 3 true)
  = Some [("C", "G", 9 # 1, 1 # 1); ("D", "G", 11 # 1, 1 # 1)].
Proof. vm_compute. reflexivity. Qed.

Example duplicate_players_nearest :
  display (find_similar_players duplicate_players "A" 5 false)
  = Some [("C", "G", 9 # 1, 1 # 1); ("B", "F", 4 # 1, 6 # 1);
          ("D", "F", 2 # 1, 8 # 1)].
Proof. vm_compute. reflexivity. Qed.

Example sample_normalized :
  map (fun lc => (fst lc, map (option_map this) (snd lc)))
      (f_stats sample_final)
  = [ ("pts", [Some (-3 # 2); Some (-1 # 2); Some (0 # 1);
               Some (1 # 2); Some (3 # 2)]);
      ("gp", [Some (0 # 1); Some (0 # 1); Some (0 # 1);
              Some (0 # 1); Some (0 # 1)]);
      ("inj", [None; None; None; None; None]) ].
Proof. vm_compute. reflexivity. Qed.

Example sample_career :
  map this (f_career sample_final)
  = [-3 # 2; -1 # 2; 0 # 1; 1 # 2; 3 # 2].
Proof. vm_compute. reflexivity. Qed.

Example sample_query :
  display (find_similar_players (rows_of sample_final) "C" 2 false)
  = Some [("B", "Unknown", -1 # 2, 1 # 2); ("D", "Unknown", 1 # 2, 1 # 2)].
Proof. vm_compute. reflexivity. Qed.

Lemma sample_load :
  load_and_process_data sqrt_floor sample_raw
  = Some (sample_final, sample_original).
Proof. reflexivity. Qed.

Lemma sample_rectangular : rectangular sample_raw 5.
Proof.
  unfold rectangular. split; [|split].
  - intros p H. injection H as <-. reflexivity.
  - intros p H. discriminate H.
  - repeat constructor.
Qed.


Lemma sample_load_fails_without_rows :
  load_and_process_data sqrt_floor (mkRaw (Some []) None [("pts", NumCol [])])
  = None.
Proof. reflexivity. Qed.

Lemma sample_load_fails_without_player :
  load_and_process_data sqrt_floor (mkRaw None None (raw_columns sample_raw))
  = None.
Proof. reflexivity. Qed.

(** ** The theorems at the sample tables *)

Lemma find_similar_sorted_stable_witness :
  target_row tied_players "A" = Some (sample_row "A" "G" 10)
  /\ exists res,
       find_similar_players tied_players "A" 2 false = Ok res
       /\ StronglySorted by_difference res
       /\ forall d, exists rest,
            at_difference d
              (map (with_difference (sample_row "A" "G" 10))
                 (filter (eligible "A" false (sample_row "A" "G" 10))
                         tied_players))
            = at_difference d res ++ rest.
Proof.
  split; [reflexivity|].
  apply (find_similar_sorted_stable tied_players "A" 2 false).
  reflexivity.
Defined.

Lemma find_similar_same_position_witness :
  target_row tied_players "A" = Some (sample_row "A" "G" 10)
  /\ exists res,
       find_similar_players tied_players "A" 3 true = Ok res
       /\ Forall (fun s => pos (sim_row s) = "G") res.
Proof.
  split; [reflexivity|].
  apply (find_similar_same_position tied_players "A" 3
           (sample_row "A" "G" 10)).
  reflexivity.
Defined.

Lemma find_similar_count_witness :
  (0 < 5)%Z
  /\ exists res,
       find_similar_players four_players "A" 5 true = Ok res
       /\ (Z.of_nat (length res) <= 5)%Z
       /\ ((5 <= Z.of_nat (length (candidates four_players "A" true)))%Z ->
           Z.of_nat (length res) = 5%Z)
       /\ ((Z.of_nat (length (candidates four_players "A" true)) <= 5)%Z ->
           Permutation res (candidates four_players "A" true)
           /\ length res = length (candidates four_players "A" true)).
Proof.
  split; [lia|].
  apply (find_similar_count four_players "A" 5 true). lia.
Defined.

Lemma find_similar_empty_results_witness :
  find_similar_players four_players "Z" 3 true = Ok []
  /\ find_similar_players
       [sample_row "A" "G" 10; sample_row "C" "F" 7] "A" 3 true = Ok [].
Proof.
  destruct find_similar_empty_results as [_ [Hname Hpos]]. split.
  - apply Hname. intros r Hr. simpl in Hr.
    destruct Hr as [<-|[<-|[<-|[<-|[]]]]]; discriminate.
  - apply (Hpos _ _ _ (sample_row "A" "G" 10)); reflexivity.
Defined.

Lemma find_similar_duplicate_names_witness :
  (forall r, In r [sample_row "B" "F" 4] -> player r <> "A")
  /\ player (sample_row "A" "G" 10) = "A"
  /\ exists res,
       find_similar_players duplicate_players "A" 2 true = Ok res
       /\ res = nsmallest score_difference 2
                  (map (with_difference (sample_row "A" "G" 10))
                     (filter (fun r =>
                                negb (String.eqb (player r) "A")
                                && (negb true
                                    || String.eqb (pos r) "G"))
                             duplicate_players))
       /\ (forall r, In r duplicate_players -> player r = "A" ->
                     ~ In r (map sim_row res))
       /\ Forall (fun s =>
                    score_difference s
                    = Qcabs (career_score (sim_row s) - Qc_of_Z 10)
                    /\ (true = true -> pos (sim_row s) = "G")) res.
Proof.
  assert (H : forall r, In r [sample_row "B" "F" 4] -> player r <> "A").
  { intros r [<-|[]]. discriminate. }
  split; [exact H|]. split; [reflexivity|].
  apply (find_similar_duplicate_names
           [sample_row "B" "F" 4]
           [sample_row "C" "G" 9; sample_row "A" "F" 3; sample_row "D" "F" 2]
           (sample_row "A" "G" 10) "A" 2 true H).
  reflexivity.
Defined.

Lemma load_preserves_rows_witness :
  rectangular sample_raw 5
  /\ load_and_process_data sqrt_floor sample_raw
     = Some (sample_final, sample_original)
  /\ raw_player sample_raw = Some (f_player sample_final)
  /\ f_pos sample_final = repeat "Unknown" 5
  /\ length (f_player sample_final) = 5%nat
  /\ length (f_pos sample_final) = 5%nat
  /\ length (f_career sample_final) = 5%nat
  /\ f_stats sample_final
     = map (fun lc => (fst lc, normalize_column sqrt_floor (snd lc)))
           (select_dtypes_number (raw_columns sample_raw))
  /\ Forall (fun lc => length (snd lc) = 5%nat) (f_stats sample_final)
  /\ forall i, (i < 5)%nat ->
       nth i (f_career sample_final) (Q2Qc 0)
       = row_sum i (f_stats sample_final).
Proof.
  split; [exact sample_rectangular|]. split; [exact sample_load|].
  exact (load_preserves_rows sqrt_floor sample_raw 5 sample_final
           sample_original sample_rectangular sample_load).
Defined.




Lemma load_fails_without_input_witness :
  select_dtypes_number
    (raw_columns (mkRaw (Some ["A"; "B"]) (Some ["G"; "F"])
                        [("team", TextCol ["X"; "Y"])])) = []
  /\ load_and_process_data sqrt_floor
       (mkRaw (Some ["A"; "B"]) (Some ["G"; "F"])
              [("team", TextCol ["X"; "Y"])]) = None.
Proof.
  split; [reflexivity|].
  apply (load_fails_without_input sqrt_floor). right. right. reflexivity.
Defined.


(** ** Where float64 rounding shows *)

Section Binary64.

Import PrimFloat.



End Binary64.

Local Open Scope Qc_scope.

(** ** Rows with equal statistics *)

Section EqualRows.
Variable sqrt : Qc -> Qc.

Lemma normalize_column_map (s : list (option Qc)) :
  exists h, normalize_column sqrt s = map h s.
Proof.
  unfold normalize_column, standardize, fillna.
  destruct (mean s) as [mu|].
  - destruct (mean (map _ s)) as [mu'|];
      [destruct (variance (map _ s)) as [var|]|];
      rewrite map_map; eexists; reflexivity.
  - destruct (mean s) as [mu'|]; [destruct (variance s) as [var|]|];
      eexists; reflexivity.
Qed.

(** X8. Two rows with the same value, or both missing, in every numeric
    column of the raw table get the same career score. *)
Theorem equal_statistics_equal_career (nba_data : RawFrame) (n : nat)
    (fd : FinalFrame) (original_data : RawFrame) (i j : nat) :
  rectangular nba_data n ->
  load_and_process_data sqrt nba_data = Some (fd, original_data) ->
  (i < n)%nat -> (j < n)%nat ->
  (forall label col,
      In (label, NumCol col) (raw_columns nba_data) ->
      nth i col None = nth j col None) ->
  nth i (f_career fd) 0 = nth j (f_career fd) 0.
Proof.
  intros Hr H Hi Hj Heq.
  destruct (load_rows sqrt _ _ _ _ Hr H) as [players [Hp [Hn [_ ->]]]].
  subst n.
  rewrite !(final_frame_career sqrt _ _ _ Hr) by assumption.
  unfold row_sum, normalized_columns. rewrite !map_map. f_equal.
  apply map_ext_in. intros [label col] Hin. cbn [fst snd].
  pose proof (rectangular_numeric _ _ Hr) as Hlen.
  rewrite Forall_forall in Hlen. specialize (Hlen _ Hin). cbn [snd] in Hlen.
  apply select_dtypes_number_In in Hin.
  destruct (normalize_column_map col) as [h ->].
  rewrite (nth_indep _ None (h None)) by (rewrite length_map; lia).
  rewrite (nth_indep _ None (h None) (n := j)) by (rewrite length_map; lia).
  rewrite !map_nth. f_equal. f_equal. apply (Heq label col Hin).
Qed.
End EqualRows.

(** ** More on the query *)

Lemma strongly_sorted_app {A : Type} (R : A -> A -> Prop) (l1 l2 : list A) :
  StronglySorted R (l1 ++ l2) ->
  forall a b, In a l1 -> In b l2 -> R a b.
Proof.
  induction l1 as [|x l1 IH]; intros H a b Ha Hb; [destruct Ha|].
  simpl in H. apply StronglySorted_inv in H. destruct H as [Hs Hall].
  destruct Ha as [<-|Ha].
  - rewrite Forall_forall in Hall. apply Hall, in_or_app. right. exact Hb.
  - exact (IH Hs a b Ha Hb).
Qed.

Lemma nsmallest_split {A : Type} (key : A -> Qc) (n : Z) (l : list A) :
  exists rest,
    Permutation l (nsmallest key n l ++ rest)
    /\ forall a b, In a (nsmallest key n l) -> In b rest -> key a <= key b.
Proof.
  unfold nsmallest. destruct (n <=? 0)%Z.
  - exists l. split; [apply Permutation_refl|]. intros a b [].
  - exists (skipn (Z.to_nat n) (sort_values key l)). split.
    + rewrite firstn_skipn. apply Permutation_sym, sort_values_perm.
    + apply (strongly_sorted_app (key_le key)).
      rewrite firstn_skipn. apply sort_values_strongly_sorted.
Qed.

(** X9. The query returns nearest candidates: the candidates split into
    the returned rows and the others, and no row left out is nearer to the
    target than a returned one. *)
Theorem find_similar_nearest (final_df : list Row) (target_player : string)
    (num_comparisons : Z) (same_position_only : bool) :
  exists res rest,
    find_similar_players final_df target_player num_comparisons
                         same_position_only = Ok res
    /\ Permutation (candidates final_df target_player same_position_only)
                   (res ++ rest)
    /\ forall r c, In r res -> In c rest ->
                   score_difference r <= score_difference c.
Proof.
  destruct (nsmallest_split score_difference num_comparisons
              (candidates final_df target_player same_position_only))
    as [rest [Hp Hle]].
  eexists. exists rest. split; [apply find_similar_players_candidates|].
  split; assumption.
Qed.

(** X10. Asking for more players only appends: for [k <= k'] the result
    for [k] is the first [k] rows of the result for [k']; it is empty for
    [k <= 0]. *)
Theorem find_similar_prefix (final_df : list Row) (target_player : string)
    (k k' : Z) (same_position_only : bool) :
  (k <= k')%Z ->
  exists res res',
    find_similar_players final_df target_player k same_position_only = Ok res
    /\ find_similar_players final_df target_player k' same_position_only
       = Ok res'
    /\ res = firstn (Z.to_nat k) res'.
Proof.
  intros Hk. eexists. eexists.
  split; [apply find_similar_players_candidates|].
  split; [apply find_similar_players_candidates|].
  unfold nsmallest.
  destruct (Z.leb_spec k 0) as [H0|H0].
  - replace (Z.to_nat k) with O by lia. reflexivity.
  - destruct (Z.leb_spec k' 0); [lia|].
    rewrite firstn_firstn. f_equal. lia.
Qed.

Lemma Qcabs_zero_iff (x : Qc) : Qcabs x = 0 <-> x = 0.
Proof.
  split; [apply Qcabs_null|]. intros ->. apply Qcabs_pos, Qcle_refl.
Qed.

(** X11. Every returned row is a row of the table; its distance is not
    negative, and is zero exactly when its career score is that of the
    first row of the target. *)
Theorem find_similar_rows (final_df : list Row) (target_player : string)
    (num_comparisons : Z) (same_position_only : bool) (t0 : Row) :
  target_row final_df target_player = Some t0 ->
  exists res,
    find_similar_players final_df target_player num_comparisons
                         same_position_only = Ok res
    /\ Forall (fun s =>
                 In (sim_row s) final_df
                 /\ 0 <= score_difference s
                 /\ (score_difference s = 0
                     <-> career_score (sim_row s) = career_score t0)) res.
Proof.
  intros Ht. eexists. split; [apply find_similar_players_candidates|].
  apply Forall_forall. intros s Hs. apply nsmallest_incl in Hs.
  destruct (candidates_eligible _ _ _ _ _ Ht Hs) as [Hin [_ Hd]].
  split; [exact Hin|]. rewrite Hd. unfold with_difference.
  cbn [score_difference sim_row]. split; [apply Qcabs_nonneg|].
  rewrite Qcabs_zero_iff. split; intros E.
  - rewrite <- (Qcplus_0_l (career_score t0)), <- E. ring.
  - rewrite E. ring.
Qed.

Lemma filter_map_comm {A B : Type} (f : A -> B) (p : B -> bool)
    (l : list A) :
  filter p (map f l) = map f (filter (fun a => p (f a)) l).
Proof.
  induction l as [|a l IH]; simpl; [reflexivity|].
  destruct (p (f a)); simpl; rewrite IH; reflexivity.
Qed.

Section FilterSort.
Variable A : Type.
Variable key : A -> Qc.
Variable p : A -> bool.

Lemma insert_row_front (x : A) (l : list A) :
  Forall (fun y => key x <= key y) l -> insert_row key x l = x :: l.
Proof.
  intros H. destruct l as [|y l]; [reflexivity|]. simpl.
  apply Forall_inv in H. apply Qcleb_true in H. rewrite H. reflexivity.
Qed.

Lemma filter_insert_row (x : A) (l : list A) :
  StronglySorted (key_le key) l ->
  filter p (insert_row key x l)
  = if p x then insert_row key x (filter p l) else filter p l.
Proof.
  induction 1 as [|y l Hs IH Hall].
  - simpl. destruct (p x); reflexivity.
  - cbn [insert_row]. destruct (Qcleb (key x) (key y)) eqn:E.
    + apply Qcleb_true in E.
      assert (G : Forall (fun z => key x <= key z) (y :: l)).
      { constructor; [exact E|]. rewrite Forall_forall in *.
        intros z Hz. eapply Qcle_trans; [exact E | exact (Hall z Hz)]. }
      remember (y :: l) as yl. cbn [filter].
      destruct (p x); [|reflexivity].
      symmetry. apply insert_row_front.
      rewrite Forall_forall in *. intros z Hz.
      apply filter_In in Hz. apply G. exact (proj1 Hz).
    + cbn [filter]. destruct (p y) eqn:Ey.
      * rewrite IH. destruct (p x); [|reflexivity].
        cbn [insert_row]. rewrite E. reflexivity.
      * exact IH.
Qed.

Lemma filter_sort_values (l : list A) :
  filter p (sort_values key l) = sort_values key (filter p l).
Proof.
  induction l as [|x l IH]; [reflexivity|].
  cbn [sort_values filter].
  rewrite filter_insert_row by apply sort_values_strongly_sorted.
  rewrite IH. destruct (p x); reflexivity.
Qed.
End FilterSort.

Lemma candidates_same_position (final_df : list Row)
    (target_player : string) (t0 : Row) :
  target_row final_df target_player = Some t0 ->
  candidates final_df target_player true
  = filter (fun s => String.eqb (pos (sim_row s)) (pos t0))
           (candidates final_df target_player false).
Proof.
  intros Ht. rewrite !(candidates_present _ _ _ _ Ht).
  rewrite filter_map_comm, filter_filter. f_equal.
  apply filter_ext. intros r. unfold eligible. cbn [negb orb sim_row with_difference].
  rewrite andb_true_r. reflexivity.
Qed.

(** X12. When the number asked for covers all candidates, the result with
    the position filter is the result without it, restricted to the rows
    at the position of the target, in the same order. *)
Theorem find_similar_filter_commutes (final_df : list Row)
    (target_player : string) (num_comparisons : Z) (t0 : Row) :
  target_row final_df target_player = Some t0 ->
  (Z.of_nat (length (candidates final_df target_player false))
   <= num_comparisons)%Z ->
  exists res_any res_same,
    find_similar_players final_df target_player num_comparisons false
    = Ok res_any
    /\ find_similar_players final_df target_player num_comparisons true
       = Ok res_same
    /\ res_same
       = filter (fun s => String.eqb (pos (sim_row s)) (pos t0)) res_any.
Proof.
  intros Ht Hk. eexists. eexists.
  split; [apply find_similar_players_candidates|].
  split; [apply find_similar_players_candidates|].
  rewrite (candidates_same_position _ _ _ Ht).
  destruct (Z.leb_spec num_comparisons 0) as [H0|H0].
  - destruct (candidates final_df target_player false); [|simpl in Hk; lia].
    simpl. rewrite !nsmallest_nil. reflexivity.
  - rewrite !nsmallest_all; try lia.
    + symmetry. apply filter_sort_values.
    + pose proof (filter_length_le
                    (fun s => String.eqb (pos (sim_row s)) (pos t0))
                    (candidates final_df target_player false)). lia.
Qed.

(** X13. The distance is symmetric: for two names of the table with first
    rows [a] and [b], [b] is a candidate for [a] and [a] a candidate for
    [b], at the same distance. *)
Theorem score_difference_symmetric (final_df : list Row)
    (name_a name_b : string) (a b : Row) :
  target_row final_df name_a = Some a ->
  target_row final_df name_b = Some b ->
  name_a <> name_b ->
  In (with_difference a b) (candidates final_df name_a false)
  /\ In (with_difference b a) (candidates final_df name_b false)
  /\ score_difference (with_difference a b)
     = score_difference (with_difference b a).
Proof.
  intros Ha Hb Hne.
  destruct (target_row_player _ _ _ Ha) as [Hina Hpa].
  destruct (target_row_player _ _ _ Hb) as [Hinb Hpb].
  rewrite (candidates_present _ _ _ _ Ha), (candidates_present _ _ _ _ Hb).
  split; [|split].
  - apply in_map, filter_In. split; [exact Hinb|].
    unfold eligible. rewrite Hpb. cbn [negb orb]. rewrite andb_true_r.
    apply negb_true_iff, String.eqb_neq. congruence.
  - apply in_map, filter_In. split; [exact Hina|].
    unfold eligible. rewrite Hpa. cbn [negb orb]. rewrite andb_true_r.
    apply negb_true_iff, String.eqb_neq. congruence.
  - unfold with_difference. cbn [score_difference].
    apply Qcabs_Qcminus.
Qed.

(** ** From [Qc] to [Q] *)

Lemma this_plus (x y : Qc) : (this (x + y) == this x + this y)%Q.
Proof. unfold Qcplus, Q2Qc. cbn [this]. apply Qred_correct. Qed.

Lemma this_mult (x y : Qc) : (this (x * y) == this x * this y)%Q.
Proof. unfold Qcmult, Q2Qc. cbn [this]. apply Qred_correct. Qed.

Lemma this_opp (x : Qc) : (this (- x) == - this x)%Q.
Proof. unfold Qcopp, Q2Qc. cbn [this]. apply Qred_correct. Qed.

Lemma this_minus (x y : Qc) : (this (x - y) == this x - this y)%Q.
Proof. unfold Qcminus. rewrite this_plus, this_opp. reflexivity. Qed.

Lemma this_of_Z (z : Z) : (this (Qc_of_Z z) == inject_Z z)%Q.
Proof. unfold Qc_of_Z, Q2Qc. cbn [this]. apply Qred_correct. Qed.

Lemma this_zero : (this 0 == 0)%Q.
Proof. reflexivity. Qed.

Lemma Qc_eq_this (x y : Qc) : x = y <-> (this x == this y)%Q.
Proof. split; [intros ->; reflexivity | apply Qc_is_canon]. Qed.

Lemma Qcleb_false_iff (x y : Qc) : Qcleb x y = false <-> y < x.
Proof.
  split; [apply Qcleb_false|]. intros H.
  destruct (Qcleb x y) eqn:E; [|reflexivity].
  apply Qcleb_true in E. exfalso. exact (Qclt_not_le _ _ H E).
Qed.

(** Goals and hypotheses on [Qc] restated on [Q], where [lra] applies. *)
Ltac to_Q :=
  unfold Qcle, Qclt in *;
  repeat match goal with
         | H : @eq Qc _ _ |- _ => apply Qc_eq_this in H
         | |- @eq Qc _ _ => apply Qc_eq_this
         | H : ~ @eq Qc _ _ |- _ => rewrite Qc_eq_this in H
         | |- ~ @eq Qc _ _ => rewrite Qc_eq_this
         end;
  repeat (rewrite ?this_minus, ?this_plus, ?this_mult, ?this_opp,
            ?this_of_Z, ?this_zero in * ).

(** ** score_similarity *)

Lemma score_similarity_cases (d : Qc) :
  (Qc_of_Z 100 - d * Qc_of_Z 10 <= 0 /\ score_similarity d = 0)
  \/ (0 < Qc_of_Z 100 - d * Qc_of_Z 10
      /\ score_similarity d = Qc_of_Z 100 - d * Qc_of_Z 10).
Proof.
  unfold score_similarity, py_max.
  destruct (Qcleb (Qc_of_Z 100 - d * Qc_of_Z 10) 0) eqn:E.
  - left. split; [apply Qcleb_true, E | reflexivity].
  - right. split; [apply Qcleb_false, E | reflexivity].
Qed.

(** X16. For a distance that is not negative the score similarity lies
    between 0 and 100; it is 100 at distance 0, and it is 0 exactly from
    distance 10 on. *)
Theorem score_similarity_range (d : Qc) :
  0 <= d ->
  0 <= score_similarity d
  /\ score_similarity d <= Qc_of_Z 100
  /\ (d = 0 -> score_similarity d = Qc_of_Z 100)
  /\ (score_similarity d = 0 <-> Qc_of_Z 10 <= d).
Proof.
  intros Hd.
  destruct (score_similarity_cases d) as [[Hc ->]|[Hc ->]];
    to_Q; repeat split; intros; to_Q; unfold inject_Z in *; lra.
Qed.

(** X17. The score similarity does not increase with the distance. *)
Theorem score_similarity_antitone (d d' : Qc) :
  d <= d' -> score_similarity d' <= score_similarity d.
Proof.
  intros Hd.
  destruct (score_similarity_cases d) as [[Hc ->]|[Hc ->]];
    destruct (score_similarity_cases d') as [[Hc' ->]|[Hc' ->]];
    to_Q; unfold inject_Z in *; lra.
Qed.

Local Close Scope Qc_scope.

(** ** The player selectbox *)

Lemma unique_In (s : list string) (x : string) :
  In x (unique s) <-> In x s.
Proof.
  induction s as [|a s IH]; [reflexivity|].
  cbn [unique In]. rewrite filter_In, IH, negb_true_iff, String.eqb_neq.
  destruct (string_dec a x) as [E|E]; intuition congruence.
Qed.

Lemma unique_NoDup (s : list string) : NoDup (unique s).
Proof.
  induction s as [|a s IH]; [constructor|].
  cbn [unique]. constructor.
  - rewrite filter_In, negb_true_iff, String.eqb_neq. intros [_ H].
    apply H. reflexivity.
  - apply NoDup_filter, IH.
Qed.

Lemma target_row_present (final_df : list Row) (name : string) :
  In name (map player final_df) ->
  exists t0, target_row final_df name = Some t0.
Proof.
  intros H. apply in_map_iff in H. destruct H as [r [Hr Hin]].
  unfold target_row.
  destruct (find (fun r0 => String.eqb (player r0) name) final_df) as [t0|]
    eqn:E; [eexists; reflexivity|].
  exfalso. apply (find_none _ _ E) in Hin.
  rewrite Hr, String.eqb_refl in Hin. discriminate.
Qed.

Lemma selectbox_In {A : Type} (options : list A) (index : nat) (a : A) :
  St.selectbox options index = Some a -> In a options.
Proof.
  unfold St.selectbox. destruct options as [|first rest]; [discriminate|].
  intros H. injection H as <-.
  change (In (nth index (first :: rest) first) (first :: rest)).
  destruct (Nat.lt_ge_cases index (length (first :: rest))) as [Hi|Hi].
  - exact (nth_In (first :: rest) first Hi).
  - rewrite (nth_overflow (first :: rest) first Hi). left. reflexivity.
Qed.

(** X14. The player selectbox offers every name of the table, and each
    once. *)
Theorem player_options_once_each (final_df : list Row) :
  NoDup (unique (map player final_df))
  /\ forall name,
       In name (unique (map player final_df))
       <-> exists r, In r final_df /\ player r = name.
Proof.
  split; [apply unique_NoDup|]. intros name.
  rewrite unique_In, in_map_iff. split; intros [r [H1 H2]]; exists r; auto.
Qed.

Lemma get_player_input_valid_aux (final_df : list Row) (widgets : Widgets) :
  final_df <> [] ->
  exists name t0 k,
    get_player_input final_df widgets
    = (Some name, k, same_position_checked widgets)
    /\ target_row final_df name = Some t0
    /\ (1 <= k <= 5)%Z.
Proof.
  intros Hne. unfold get_player_input.
  destruct (St.selectbox (unique (map player final_df))
                         (player_index widgets)) as [name|] eqn:E.
  - pose proof (selectbox_In _ _ _ E) as Hin.
    apply (proj1 (unique_In _ _)) in Hin.
    destruct (target_row_present _ _ Hin) as [t0 Ht].
    exists name, t0. eexists. split; [reflexivity|]. split; [exact Ht|].
    destruct (count_index widgets) as [|[|[|[|[|[|i]]]]]]; simpl; lia.
  - exfalso. destruct final_df as [|r l]; [congruence|].
    simpl in E. discriminate.
Qed.

(** X15. On a table with at least one row, whatever the state of the
    widgets, the input is a name borne by a row of the table, a number
    between 1 and 5 and the state of the checkbox. *)
Theorem get_player_input_valid (final_df : list Row) (widgets : Widgets) :
  final_df <> [] ->
  exists name t0 k,
    get_player_input final_df widgets
    = (Some name, k, same_position_checked widgets)
    /\ target_row final_df name = Some t0
    /\ (1 <= k <= 5)%Z.
Proof. apply get_player_input_valid_aux. Qed.

(** ** The display *)

Lemma for_each_optional {A B : Type} (body : A -> outcome (list B))
    (p : A -> bool) (Q : A -> B -> Prop) (l : list A) :
  (forall a, In a l ->
     (p a = false /\ body a = Done [])
     \/ (p a = true /\ exists b, body a = Done [b] /\ Q a b)) ->
  exists outs,
    for_each body l = Done outs /\ Forall2 Q (filter p l) outs.
Proof.
  induction l as [|a l IH]; intros H.
  - exists []. split; [reflexivity | constructor].
  - destruct IH as [outs [Hf Hq]].
    { intros a' Ha'. apply H. right. exact Ha'. }
    cbn [for_each filter].
    destruct (H a (or_introl eq_refl)) as [[Hp Hb]|[Hp [b [Hb HQ]]]];
      rewrite Hb, Hp; cbn [Page.bind]; rewrite Hf; cbn [Page.bind app].
    + exists outs. split; [reflexivity | exact Hq].
    + exists (b :: outs). split; [reflexivity|]. constructor; assumption.
Qed.

Lemma for_each_single {A B : Type} (body : A -> outcome (list B))
    (Q : A -> B -> Prop) (l : list A) :
  (forall a, In a l -> exists b, body a = Done [b] /\ Q a b) ->
  exists outs, for_each body l = Done outs /\ Forall2 Q l outs.
Proof.
  induction l as [|a l IH]; intros H.
  - exists []. split; [reflexivity | constructor].
  - destruct IH as [outs [Hf Hq]].
    { intros a' Ha'. apply H. right. exact Ha'. }
    destruct (H a (or_introl eq_refl)) as [b [Hb HQ]].
    exists (b :: outs). cbn [for_each]. rewrite Hb. cbn [Page.bind].
    rewrite Hf. cbn [Page.bind app]. split; [reflexivity|].
    constructor; assumption.
Qed.

Lemma in_split_first (name : string) (ps : list string) :
  In name ps ->
  exists l1 l2, ps = l1 ++ name :: l2 /\ ~ In name l1.
Proof.
  induction ps as [|p ps IH]; intros H; [destruct H|].
  destruct (string_dec p name) as [->|Hne].
  - exists [], ps. split; [reflexivity | intros []].
  - destruct H as [H|H]; [congruence|].
    destruct (IH H) as [l1 [l2 [-> Hl1]]].
    exists (p :: l1), l2. split; [reflexivity|].
    intros [E|E]; [congruence | exact (Hl1 E)].
Qed.

Lemma select_mask_first {A : Type} (name : string) (l1 l2 : list string)
    (cells : list A) :
  ~ In name l1 ->
  length cells = length (l1 ++ name :: l2) ->
  exists c rest,
    select_mask (map (fun s => String.eqb s name) (l1 ++ name :: l2)) cells
    = c :: rest
    /\ nth_error cells (length l1) = Some c.
Proof.
  revert cells. induction l1 as [|p l1 IH]; intros cells Hn Hlen.
  - destruct cells as [|c cells]; [discriminate|].
    exists c. eexists. unfold select_mask. cbn [app map combine filter fst].
    rewrite String.eqb_refl. cbn [map snd]. split; reflexivity.
  - destruct cells as [|c0 cells]; [discriminate|].
    destruct (IH cells) as [c [rest [Hs Hc]]].
    + intros E. apply Hn. right. exact E.
    + simpl in Hlen. injection Hlen as Hlen. exact Hlen.
    + exists c, rest. split; [|exact Hc].
      unfold select_mask in *. cbn [app map combine filter fst].
      assert (E : String.eqb p name = false).
      { apply String.eqb_neq. intros ->. apply Hn. left. reflexivity. }
      rewrite E. exact Hs.
Qed.

Lemma select_mask_absent {A : Type} (name : string) (ps : list string)
    (cells : list A) :
  ~ In name ps ->
  select_mask (map (fun s => String.eqb s name) ps) cells = [].
Proof.
  revert cells. induction ps as [|p ps IH]; intros cells Hn; [reflexivity|].
  destruct cells as [|c cells]; [reflexivity|].
  unfold select_mask in *. cbn [map combine filter fst].
  assert (E : String.eqb p name = false).
  { apply String.eqb_neq. intros ->. apply Hn. left. reflexivity. }
  rewrite E. apply IH. intros H. apply Hn. right. exact H.
Qed.

Lemma cells_of_length (c : column) : length (cells_of c) = column_length c.
Proof. destruct c; apply length_map. Qed.

Lemma frame_column_length (df : RawFrame) (n : nat) (label : string)
    (c : column) :
  rectangular df n -> frame_column df label = Some c -> column_length c = n.
Proof.
  intros [Hp [Hpos Hcols]]. unfold frame_column.
  destruct (String.eqb label "player").
  - destruct (raw_player df) as [ps|] eqn:E; [|discriminate].
    intros H. injection H as <-. apply Hp. reflexivity.
  - destruct (String.eqb label "pos").
    + destruct (raw_pos df) as [ps|] eqn:E; [|discriminate].
      intros H. injection H as <-. apply Hpos. reflexivity.
    + destruct (find _ (raw_columns df)) as [lc|] eqn:E; [|discriminate].
      intros H. injection H as <-. apply find_some in E.
      rewrite Forall_forall in Hcols. exact (Hcols _ (proj1 E)).
Qed.


Lemma filter_none {A : Type} (l : list A) :
  filter (fun _ => false) l = [].
Proof. induction l as [|a l IH]; [reflexivity | exact IH]. Qed.

Section KeyStats.
Variable original_data : RawFrame.
Variable n : nat.
Variable ps : list string.
Hypothesis Hplayer : raw_player original_data = Some ps.
Hypothesis Hrect : rectangular original_data n.

Lemma getitem_player :
  getitem original_data "player" = Done (TextCol ps).
Proof.
  unfold getitem, frame_column. cbn [String.eqb Ascii.eqb Bool.eqb].
  rewrite Hplayer. reflexivity.
Qed.

Lemma show_key_stats_absent (name : string) :
  ~ In name ps ->
  show_key_stats original_data name = Done [].
Proof.
  intros Hn. unfold show_key_stats.
  match goal with
  | |- for_each ?body ?l = _ =>
      destruct (for_each_optional body (fun _ => false) (fun _ _ => True) l)
        as [outs [Hf Hq]]
  end.
  - intros stat _. left. split; [reflexivity|].
    destruct (in_columns stat original_data); [|reflexivity].
    rewrite getitem_player. cbn [Page.bind cells_of].
    rewrite map_map. rewrite select_mask_absent by exact Hn. reflexivity.
  - rewrite Hf. f_equal.
    rewrite filter_none in Hq. inversion Hq. reflexivity.
Qed.

Lemma key_stats_first_three :
  filter (fun stat => in_columns stat original_data)
         (firstn 3 (key_stats original_data))
  = filter (fun stat => in_columns stat original_data)
           ["pts"; "reb"; "ast"].
Proof.
  unfold key_stats.
  destruct (existsb _ _) eqn:E; [reflexivity|].
  cbn [existsb] in E.
  apply orb_false_iff in E. destruct E as [E1 E].
  apply orb_false_iff in E. destruct E as [E2 E].
  apply orb_false_iff in E. destruct E as [E3 _].
  cbn [firstn filter]. rewrite E1, E2, E3. reflexivity.
Qed.

Lemma show_key_stats_present (name : string) (l1 l2 : list string) :
  ps = l1 ++ name :: l2 -> ~ In name l1 ->
  exists out,
    show_key_stats original_data name = Done out
    /\ Forall2 (key_stat_shown original_data (length l1))
               (filter (fun stat => in_columns stat original_data)
                       ["pts"; "reb"; "ast"])
               out.
Proof.
  intros Hps Hl1. rewrite <- key_stats_first_three.
  unfold show_key_stats. apply for_each_optional.
  intros stat _.
  destruct (in_columns stat original_data) eqn:Ec;
    [right | left; split; reflexivity].
  split; [reflexivity|].
  rewrite getitem_player. cbn [Page.bind cells_of]. rewrite map_map.
  unfold in_columns in Ec. unfold getitem.
  destruct (frame_column original_data stat) as [col|] eqn:Ef;
    [|discriminate].
  assert (Hn : length ps = n).
  { destruct Hrect as [Hp _]. apply Hp, Hplayer. }
  destruct (select_mask_first name l1 l2 (map TextCell ps) Hl1)
    as [c0 [rest0 [Hs0 _]]].
  { rewrite length_map, Hps. reflexivity. }
  destruct (select_mask_first name l1 l2 (cells_of col) Hl1)
    as [c [rest [Hs Hc]]].
  { rewrite cells_of_length, (frame_column_length _ _ _ _ Hrect Ef).
    rewrite <- Hn, Hps. reflexivity. }
  rewrite Hps in Hs0. rewrite Hps, Hs0. cbn [empty Page.bind]. rewrite Hs. cbn [iloc0 call Page.bind].
  eexists. split; [reflexivity|].
  exists col, c. repeat split; assumption.
Qed.

Lemma show_key_stats_done (name : string) :
  exists out, show_key_stats original_data name = Done out.
Proof.
  destruct (in_dec string_dec name ps) as [Hin|Hn].
  - destruct (in_split_first _ _ Hin) as [l1 [l2 [Hps Hl1]]].
    destruct (show_key_stats_present name l1 l2 Hps Hl1) as [out [H _]].
    exists out. exact H.
  - exists []. apply show_key_stats_absent. exact Hn.
Qed.

(** X18. For a player of the raw table, the key statistics shown are
    those of "pts", "reb", "ast" that are columns of the raw table, in
    that order, each with the raw cell of the first row bearing the name;
    "fg_pct" is never shown. *)
Theorem key_stats_of_first_row (name : string) (l1 l2 : list string) :
  ps = l1 ++ name :: l2 -> ~ In name l1 ->
  exists out,
    show_key_stats original_data name = Done out
    /\ Forall2 (key_stat_shown original_data (length l1))
               (filter (fun stat => in_columns stat original_data)
                       ["pts"; "reb"; "ast"])
               out.
Proof. apply show_key_stats_present. Qed.
End KeyStats.

Lemma target_data_absent (final_df : list Row) (target_player : string) :
  target_row final_df target_player = None ->
  filter (fun r => String.eqb (player r) target_player) final_df = [].
Proof.
  unfold target_row. rewrite find_hd_filter.
  destruct (filter _ final_df); [reflexivity | discriminate].
Qed.

Lemma target_data_present (final_df : list Row) (target_player : string)
    (t0 : Row) :
  target_row final_df target_player = Some t0 ->
  exists rest,
    filter (fun r => String.eqb (player r) target_player) final_df
    = t0 :: rest.
Proof.
  unfold target_row. rewrite find_hd_filter.
  destruct (filter _ final_df) as [|r rest]; [discriminate|].
  intros H. injection H as ->. exists rest. reflexivity.
Qed.

Lemma enumerate_length {A : Type} (start : nat) (l : list A) :
  length (enumerate start l) = length l.
Proof.
  revert start. induction l as [|a l IH]; intros start; [reflexivity|].
  simpl. rewrite IH. reflexivity.
Qed.

Section Display.
Variable original_data : RawFrame.
Variable n : nat.
Variable ps : list string.
Hypothesis Hplayer : raw_player original_data = Some ps.
Hypothesis Hrect : rectangular original_data n.

Lemma display_raises_iff_absent_aux (final_df : list Row)
    (target_player : string) (similar_players : list SimilarRow)
    (same_position_only : bool) :
  (target_row final_df target_player = None ->
   display_player_comparison final_df original_data target_player
                             similar_players same_position_only
   = Failed (Python IndexError))
  /\ (forall t0,
        target_row final_df target_player = Some t0 ->
        exists out,
          display_player_comparison final_df original_data target_player
                                    similar_players same_position_only
          = Done out).
Proof.
  split.
  - intros Ht. unfold display_player_comparison.
    rewrite (target_data_absent _ _ Ht). reflexivity.
  - intros t0 Ht. unfold display_player_comparison.
    destruct (target_data_present _ _ _ Ht) as [rest ->].
    cbn [iloc0 call Page.bind map].
    destruct similar_players as [|s l]; cbn [empty negb].
    + destruct same_position_only; cbn [Page.bind]; eexists; reflexivity.
    + match goal with
      | |- exists out, Page.bind (for_each ?body ?l) _ = _ =>
          destruct (for_each_single body (fun _ _ => True) l)
            as [outs [Hf _]]
      end.
      * intros en _.
        destruct (show_key_stats_done original_data n ps Hplayer Hrect
                    (player (sim_row (snd en)))) as [col3 Hc].
        rewrite Hc. cbn [Page.bind]. eexists. split; [reflexivity | exact I].
      * rewrite Hf. cbn [Page.bind]. eexists. reflexivity.
Qed.

(** X19. The display raises [IndexError] when no row of the table bears
    the name of the target, and otherwise returns, whatever the results
    handed to it. *)
Theorem display_raises_iff_absent (final_df : list Row)
    (target_player : string) (similar_players : list SimilarRow)
    (same_position_only : bool) :
  (target_row final_df target_player = None ->
   display_player_comparison final_df original_data target_player
                             similar_players same_position_only
   = Failed (Python IndexError))
  /\ (forall t0,
        target_row final_df target_player = Some t0 ->
        exists out,
          display_player_comparison final_df original_data target_player
                                    similar_players same_position_only
          = Done out).
Proof. apply display_raises_iff_absent_aux. Qed.

(** X20. For a target of the table with first row [t0], the display
    starts with the header and the name, position and career score of
    [t0]; without results it ends with the warning, which names the
    position of [t0] when the filter is on; with results it goes on with
    one expander per result, in order, numbered from 1. *)
Theorem display_shape (final_df : list Row) (target_player : string)
    (similar_players : list SimilarRow) (same_position_only : bool)
    (t0 : Row) :
  target_row final_df target_player = Some t0 ->
  (similar_players = [] ->
   display_player_comparison final_df original_data target_player
                             similar_players same_position_only
   = Done [ target_header target_player same_position_only;
            target_metrics target_player t0;
            St.warning
              (if same_position_only
               then (("No players found with similar career scores"
                      ++ " in the " ++ pos t0 ++ " position") ++ ".")%string
               else "No players found with similar career scores.") ])
  /\ (similar_players <> [] ->
      exists expanders,
        display_player_comparison final_df original_data target_player
                                  similar_players same_position_only
        = Done ([ target_header target_player same_position_only;
                  target_metrics target_player t0;
                  St.write
                    [St.Str "### Similar Players (by Career Score):"] ]
                ++ expanders)
        /\ Forall2 (fun en e =>
                      exists body,
                        e = St.expander (expander_label (fst en) (snd en))
                                        body)
                   (enumerate 1 similar_players) expanders).
Proof.
  intros Ht. unfold display_player_comparison.
  destruct (target_data_present _ _ _ Ht) as [rest ->].
  cbn [iloc0 call Page.bind map]. split.
  - intros ->. cbn [empty negb].
    destruct same_position_only; reflexivity.
  - intros Hne. destruct similar_players as [|s l]; [congruence|].
    cbn [empty negb].
    match goal with
    | |- exists expanders, Page.bind (for_each ?body ?l) _ = _ /\ _ =>
        destruct (for_each_single body
                    (fun en e =>
                       exists body0,
                         e = St.expander (expander_label (fst en) (snd en))
                                         body0) l)
          as [outs [Hf Hq]]
    end.
    + intros en _.
      destruct (show_key_stats_done original_data n ps Hplayer Hrect
                  (player (sim_row (snd en)))) as [col3 Hc].
      rewrite Hc. cbn [Page.bind]. eexists. split; [reflexivity|].
      eexists. reflexivity.
    + exists outs. rewrite Hf. cbn [Page.bind]. split; [reflexivity|].
      exact Hq.
Qed.
End Display.

(** ** The button, after a successful load *)

Lemma rows_of_player (fd : FinalFrame) :
  map player (rows_of fd) = f_player fd.
Proof.
  unfold rows_of. rewrite map_map. cbn [player].
  apply (take_seq string "" (f_player fd)).
Qed.

Section AfterLoad.
Variable sqrt : Qc -> Qc.

Lemma load_original_aux (nba_data : RawFrame) (fd : FinalFrame)
    (original_data : RawFrame) :
  load_and_process_data sqrt nba_data = Some (fd, original_data) ->
  raw_player original_data = Some (f_player fd)
  /\ raw_pos original_data = Some (f_pos fd)
  /\ raw_columns original_data = raw_columns nba_data
  /\ (forall p, raw_pos nba_data = Some p -> original_data = nba_data).
Proof.
  unfold load_and_process_data.
  destruct (raw_player nba_data) as [players|] eqn:Hp; [|discriminate].
  destruct (raw_pos nba_data) as [p|] eqn:Hpos; cbn [raw_pos raw_columns].
  - rewrite Hpos.
    destruct (fit_transform sqrt _ _) as [Y|e]; [|discriminate].
    intros H. injection H as <- <-. cbn [f_player f_pos fst snd].
    repeat split; try assumption. 
  - destruct (fit_transform sqrt _ _) as [Y|e]; [|discriminate].
    intros H. injection H as <- <-.
    cbn [f_player f_pos fst snd raw_player raw_pos raw_columns].
    repeat split; try assumption. intros p Hp'. discriminate.
Qed.

(** X21. The raw table the load step returns beside the normalised one
    has the players and the positions of the normalised table and the
    columns of the input; it is the input itself when the input has a
    ['pos'] column. *)
Theorem load_original_data (nba_data : RawFrame) (fd : FinalFrame)
    (original_data : RawFrame) :
  load_and_process_data sqrt nba_data = Some (fd, original_data) ->
  raw_player original_data = Some (f_player fd)
  /\ raw_pos original_data = Some (f_pos fd)
  /\ raw_columns original_data = raw_columns nba_data
  /\ (forall p, raw_pos nba_data = Some p -> original_data = nba_data).
Proof. apply load_original_aux. Qed.

Lemma load_original_rectangular (nba_data : RawFrame) (n : nat)
    (fd : FinalFrame) (original_data : RawFrame) :
  rectangular nba_data n ->
  load_and_process_data sqrt nba_data = Some (fd, original_data) ->
  rectangular original_data n /\ length (f_player fd) = n /\ n <> O.
Proof.
  intros Hr H.
  destruct (load_rows sqrt _ _ _ _ Hr H) as [players [Hp [Hn [Hn0 Hfd]]]].
  unfold load_and_process_data in H. rewrite Hp in H.
  destruct Hr as [H1 [H2 H3]].
  destruct (raw_pos nba_data) as [p|] eqn:Hpos; cbn [raw_pos raw_columns] in H.
  - rewrite Hpos in H.
    destruct (fit_transform sqrt _ _) as [Y|e]; [|discriminate].
    injection H as _ <-. rewrite Hfd. cbn [f_player].
    repeat split; try assumption. rewrite Hpos. exact H2.
  - destruct (fit_transform sqrt _ _) as [Y|e]; [|discriminate].
    injection H as _ <-. rewrite Hfd. cbn [f_player].
    repeat split; try assumption;
      cbn [raw_player raw_pos raw_columns]; try assumption.
    + intros p Hp'. injection Hp' as <-. exact Hn.
    + intros p Hp'. injection Hp' as <-. rewrite repeat_length. exact Hn.
Qed.

(** X22. After a successful load the button never raises: whatever the
    state of the widgets, the selected name is a player of the table, the
    query returns at most five rows and the display returns. *)
Theorem on_find_similar_never_raises (nba_data : RawFrame) (n : nat)
    (fd : FinalFrame) (original_data : RawFrame) (widgets : Widgets) :
  rectangular nba_data n ->
  load_and_process_data sqrt nba_data = Some (fd, original_data) ->
  exists name similar out,
    fst (fst (get_player_input (rows_of fd) widgets)) = Some name
    /\ In name (f_player fd)
    /\ find_similar_players (rows_of fd) name
         (snd (fst (get_player_input (rows_of fd) widgets)))
         (snd (get_player_input (rows_of fd) widgets))
       = Ok similar
    /\ (length similar <= 5)%nat
    /\ on_find_similar (rows_of fd) original_data widgets = Done out.
Proof.
  intros Hr H.
  destruct (load_original_rectangular _ _ _ _ Hr H) as [Hro [Hlen Hn0]].
  assert (Hod : raw_player original_data = Some (f_player fd)).
  { apply (load_original_aux _ _ _ H). }
  assert (Hne : rows_of fd <> []).
  { intros E. apply (f_equal (map player)) in E.
    rewrite rows_of_player in E. simpl in E. rewrite E in Hlen.
    simpl in Hlen. congruence. }
  destruct (get_player_input_valid_aux (rows_of fd) widgets Hne)
    as [name [t0 [k [Hg [Ht Hk]]]]].
  destruct (proj2 (display_raises_iff_absent_aux original_data n
                     (f_player fd) Hod Hro (rows_of fd) name
                     (nsmallest score_difference k
                        (candidates (rows_of fd) name
                           (same_position_checked widgets)))
                     (same_position_checked widgets)) t0 Ht) as [out Hout].
  exists name,
    (nsmallest score_difference k
       (candidates (rows_of fd) name (same_position_checked widgets))),
    out.
  unfold on_find_similar. rewrite Hg. cbn [fst snd].
  rewrite find_similar_players_candidates. cbn [call Page.bind].
  split; [reflexivity|]. split.
  { rewrite <- rows_of_player. apply target_row_player in Ht.
    destruct Ht as [Hin <-]. apply in_map. exact Hin. }
  split; [reflexivity|]. split; [|exact Hout].
  rewrite nsmallest_length by lia. lia.
Qed.
End AfterLoad.

(** ** The dataset statistics *)

Lemma Qcopp_le_iff (x y : Qc) : (- x <= - y)%Qc <-> (y <= x)%Qc.
Proof.
  split; intros H.
  - apply Qcopp_le_compat in H. rewrite !Qcopp_involutive in H. exact H.
  - apply Qcopp_le_compat. exact H.
Qed.

Lemma Qc_of_nat_le (a b : nat) :
  (Qc_of_nat a <= Qc_of_nat b)%Qc <-> (a <= b)%nat.
Proof.
  unfold Qc_of_nat, Qcle, Q2Qc. cbn [this]. rewrite !Qred_correct.
  rewrite <- Zle_Qle. lia.
Qed.

Lemma strongly_sorted_map {A B : Type} (f : A -> B) (R : A -> A -> Prop)
    (R' : B -> B -> Prop) (l : list A) :
  (forall a b, R a b -> R' (f a) (f b)) ->
  StronglySorted R l -> StronglySorted R' (map f l).
Proof.
  intros HR. induction 1 as [|a l Hs IH Hall]; simpl; constructor.
  - exact IH.
  - rewrite Forall_forall in *. intros b Hb. apply in_map_iff in Hb.
    destruct Hb as [a' [<- Ha']]. apply HR, Hall, Ha'.
Qed.

Lemma strongly_sorted_weaken {A : Type} (R R' : A -> A -> Prop)
    (l : list A) :
  (forall a b, R a b -> R' a b) ->
  StronglySorted R l -> StronglySorted R' l.
Proof.
  intros HR H. rewrite <- (map_id l).
  apply (strongly_sorted_map (fun a => a) R R' l HR H).
Qed.

(** X23. The table of top players has at most ten rows, ten when the
    table has as many, in non-increasing order of career score, and no row
    left out has a higher career score than a listed one. *)
Theorem top_players_largest (final_df : list Row) :
  exists rest,
    (length (top_players final_df) <= 10)%nat
    /\ ((10 <= length final_df)%nat ->
        length (top_players final_df) = 10%nat)
    /\ Permutation
         (map (fun r => (player r, pos r, career_score r)) final_df)
         (top_players final_df ++ rest)
    /\ StronglySorted (fun a b => (snd b <= snd a)%Qc)
                      (top_players final_df)
    /\ forall a b, In a (top_players final_df) -> In b rest ->
                   (snd b <= snd a)%Qc.
Proof.
  unfold top_players, nlargest.
  destruct (nsmallest_split (fun r => (- career_score r)%Qc) 10 final_df)
    as [rest [Hp Hle]].
  exists (map (fun r => (player r, pos r, career_score r)) rest).
  pose proof (nsmallest_length _ (fun r => (- career_score r)%Qc) 10
                final_df eq_refl) as Hlen.
  rewrite length_map. split; [lia|]. split; [lia|]. split.
  { rewrite <- map_app. apply Permutation_map. exact Hp. }
  split.
  - apply (strongly_sorted_map _
             (key_le (fun r => (- career_score r)%Qc))).
    + intros a b H. cbn [snd]. apply Qcopp_le_iff. exact H.
    + apply nsmallest_strongly_sorted.
  - intros a b Ha Hb. apply in_map_iff in Ha, Hb.
    destruct Ha as [ra [<- Ha]]. destruct Hb as [rb [<- Hb]]. cbn [snd].
    apply Qcopp_le_iff. exact (Hle ra rb Ha Hb).
Qed.

Lemma count_indicator (l : list string) (x : string) :
  list_sum (map (fun v => if string_dec x v then 1 else 0)%nat l)
  = count_occ string_dec l x.
Proof.
  unfold list_sum. induction l as [|a l IH]; [reflexivity|].
  cbn [map fold_right count_occ]. rewrite IH.
  destruct (string_dec x a) as [E|E]; destruct (string_dec a x) as [E'|E'];
    congruence || reflexivity.
Qed.

Lemma list_sum_plus {A : Type} (f g : A -> nat) (l : list A) :
  list_sum (map (fun a => f a + g a)%nat l)
  = (list_sum (map f l) + list_sum (map g l))%nat.
Proof.
  unfold list_sum. induction l as [|a l IH]; [reflexivity|].
  cbn [map fold_right]. rewrite IH. lia.
Qed.

Lemma count_occ_total (s l : list string) :
  NoDup l -> (forall x, In x s -> In x l) ->
  list_sum (map (count_occ string_dec s) l) = length s.
Proof.
  intros Hnd. induction s as [|x s IH]; intros Hin.
  - clear Hnd Hin. induction l as [|a l IHl]; [reflexivity|].
    exact IHl.
  - rewrite (map_ext (count_occ string_dec (x :: s))
               (fun v => (if string_dec x v then 1 else 0)
                         + count_occ string_dec s v)%nat).
    + rewrite list_sum_plus, count_indicator, IH.
      * rewrite (proj1 (NoDup_count_occ' string_dec l) Hnd x
                   (Hin x (or_introl eq_refl))). reflexivity.
      * intros y Hy. apply Hin. right. exact Hy.
    + intros v. cbn [count_occ].
      destruct (string_dec x v); reflexivity.
Qed.

Lemma notna_In (s : list (option string)) (v : string) :
  In v (notna s) <-> In (Some v) s.
Proof.
  induction s as [|[x|] s IH]; simpl.
  - tauto.
  - rewrite IH. split; intros [H|H]; try (right; exact H);
      left; congruence.
  - rewrite IH. split; [tauto|]. intros [H|H]; [discriminate | exact H].
Qed.

Lemma notna_length_le (s : list (option string)) :
  (length (notna s) <= length s)%nat.
Proof. induction s as [|[x|] s IH]; simpl; lia. Qed.

Lemma list_sum_perm (l l' : list nat) :
  Permutation l l' -> list_sum l = list_sum l'.
Proof.
  unfold list_sum. induction 1; simpl; lia.
Qed.

(** X24. The value counts of a column list every value that occurs in it
    once, with its number of occurrences, the most frequent first; missing
    cells are left out, so the counts add up to the number of cells that
    are not missing. *)
Theorem value_counts_spec (s : list (option string)) :
  NoDup (map fst (value_counts s))
  /\ (forall v c,
        In (v, c) (value_counts s)
        <-> In (Some v) s /\ c = count_occ string_dec (notna s) v)
  /\ list_sum (map snd (value_counts s)) = length (notna s)
  /\ (length (notna s) <= length s)%nat
  /\ StronglySorted (fun a b => (snd b <= snd a)%nat) (value_counts s).
Proof.
  unfold value_counts.
  set (present := notna s).
  set (key := fun vc : string * nat => (- Qc_of_nat (snd vc))%Qc).
  set (counted :=
         map (fun v => (v, count_occ string_dec present v)) (unique present)).
  pose proof (sort_values_perm _ key counted) as Hp.
  assert (Hfst : map fst counted = unique present).
  { unfold counted. rewrite map_map. cbn [fst]. apply map_id. }
  split; [|split; [|split; [|split]]].
  - apply (Permutation_NoDup (l := map fst counted)).
    + apply Permutation_map, Permutation_sym, Hp.
    + rewrite Hfst. apply unique_NoDup.
  - intros v c. rewrite <- (notna_In s v). fold present. split.
    + intros H. apply (Permutation_in _ Hp) in H.
      unfold counted in H. apply in_map_iff in H.
      destruct H as [v' [E Hv']]. injection E as <- <-.
      split; [apply unique_In, Hv' | reflexivity].
    + intros [Hv ->]. apply (Permutation_in _ (Permutation_sym Hp)).
      unfold counted. apply in_map_iff. exists v.
      split; [reflexivity | apply unique_In, Hv].
  - rewrite (list_sum_perm _ (map snd counted)).
    + unfold counted. rewrite map_map. cbn [snd].
      apply count_occ_total; [apply unique_NoDup|].
      intros x Hx. apply unique_In, Hx.
    + apply Permutation_map, Hp.
  - apply notna_length_le.
  - apply (strongly_sorted_weaken (key_le key)).
    + intros a b H. unfold key_le, key in H.
      apply (proj1 (Qcopp_le_iff _ _)) in H.
      apply (proj1 (Qc_of_nat_le _ _)) in H. exact H.
    + apply sort_values_strongly_sorted.
Qed.

Section Summary.
Variable sqrt : Qc -> Qc.

(** X25. After a successful load of a table of [n] rows the summary shows
    [n] players and three columns more than the raw table has numeric
    columns, and the normalised table has [n] rows. *)
Theorem dataset_summary (nba_data : RawFrame) (n : nat) (fd : FinalFrame)
    (original_data : RawFrame) :
  rectangular nba_data n ->
  load_and_process_data sqrt nba_data = Some (fd, original_data) ->
  total_players fd = n
  /\ available_columns fd
     = (3 + length (select_dtypes_number (raw_columns nba_data)))%nat
  /\ length (rows_of fd) = n.
Proof.
  intros Hr H.
  destruct (load_rows sqrt _ _ _ _ Hr H) as [players [Hp [Hn [_ ->]]]].
  unfold total_players, available_columns, rows_of, final_frame.
  cbn [f_player f_pos f_stats].
  split; [exact Hn|]. split.
  { unfold normalized_columns. rewrite length_map. lia. }
  rewrite length_map, length_seq. exact Hn.
Qed.
End Summary.

(** ** The further theorems at the sample tables *)

Lemma sample_original_rectangular : rectangular sample_original 5.
Proof.
  unfold rectangular. split; [|split].
  - intros p H. injection H as <-. reflexivity.
  - intros p H. injection H as <-. reflexivity.
  - repeat constructor.
Qed.

Lemma twin_load :
  load_and_process_data sqrt_floor twin_raw = Some (twin_final, twin_raw).
Proof. reflexivity. Qed.

Lemma twin_rectangular : rectangular twin_raw 3.
Proof.
  unfold rectangular. split; [|split].
  - intros p H. injection H as <-. reflexivity.
  - intros p H. injection H as <-. reflexivity.
  - repeat constructor.
Qed.

Example twin_career :
  map this (f_career twin_final) = [-3 # 2; 3 # 1; -3 # 2].
Proof. vm_compute. reflexivity. Qed.

Example sample_pos_counts :
  value_counts [Some "G"; Some "F"; None; Some "G"; Some "C"; Some "F";
                Some "G"]
  = [("G", 3%nat); ("F", 2%nat); ("C", 1%nat)].
Proof. vm_compute. reflexivity. Qed.

Example tied_players_top :
  map (fun t => (fst t, this (snd t))) (top_players tied_players)
  = [("E", "F", 12 # 1); ("B", "F", 11 # 1); ("D", "G", 11 # 1);
     ("A", "G", 10 # 1); ("C", "G", 9 # 1)].
Proof. vm_compute. reflexivity. Qed.

Example only_fg_pct_shows_nothing :
  show_key_stats
    (mkRaw (Some ["A"]) (Some ["G"]) [("fg_pct", NumCol [Some (Qc_of_Z 1)])])
    "A"
  = Done [].
Proof. reflexivity. Qed.

Lemma equal_statistics_equal_career_witness :
  rectangular twin_raw 3
  /\ load_and_process_data sqrt_floor twin_raw = Some (twin_final, twin_raw)
  /\ nth 0 (f_career twin_final) (Q2Qc 0)
     = nth 2 (f_career twin_final) (Q2Qc 0).
Proof.
  split; [exact twin_rectangular|]. split; [exact twin_load|].
  apply (equal_statistics_equal_career sqrt_floor twin_raw 3 twin_final
           twin_raw 0 2 twin_rectangular twin_load); [lia | lia |].
  intros label col H. simpl in H.
  destruct H as [H|[H|[]]]; injection H as _ <-; reflexivity.
Defined.

Lemma find_similar_prefix_witness :
  (1 <= 3)%Z
  /\ exists res res',
       find_similar_players tied_players "A" 1 false = Ok res
       /\ find_similar_players tied_players "A" 3 false = Ok res'
       /\ res = firstn (Z.to_nat 1) res'.
Proof.
  split; [lia|].
  apply (find_similar_prefix tied_players "A" 1 3 false). lia.
Defined.

Lemma find_similar_rows_witness :
  target_row tied_players "A" = Some (sample_row "A" "G" 10)
  /\ exists res,
       find_similar_players tied_players "A" 2 true = Ok res
       /\ Forall (fun s =>
                    In (sim_row s) tied_players
                    /\ (Q2Qc 0 <= score_difference s)%Qc
                    /\ (score_difference s = Q2Qc 0
                        <-> career_score (sim_row s) = Qc_of_Z 10)) res.
Proof.
  split; [reflexivity|].
  apply (find_similar_rows tied_players "A" 2 true (sample_row "A" "G" 10)).
  reflexivity.
Defined.

Lemma find_similar_filter_commutes_witness :
  target_row tied_players "A" = Some (sample_row "A" "G" 10)
  /\ (Z.of_nat (length (candidates tied_players "A" false)) <= 5)%Z
  /\ exists res_any res_same,
       find_similar_players tied_players "A" 5 false = Ok res_any
       /\ find_similar_players tied_players "A" 5 true = Ok res_same
       /\ res_same
          = filter (fun s => String.eqb (pos (sim_row s)) "G") res_any.
Proof.
  assert (Hk : (Z.of_nat (length (candidates tied_players "A" false)) <= 5)%Z).
  { vm_compute. discriminate. }
  split; [reflexivity|]. split; [exact Hk|].
  apply (find_similar_filter_commutes tied_players "A" 5
           (sample_row "A" "G" 10)); [reflexivity | exact Hk].
Defined.

Lemma score_difference_symmetric_witness :
  target_row four_players "A" = Some (sample_row "A" "G" 10)
  /\ target_row four_players "C" = Some (sample_row "C" "F" 7)
  /\ "A" <> "C"
  /\ In (with_difference (sample_row "A" "G" 10) (sample_row "C" "F" 7))
        (candidates four_players "A" false)
  /\ In (with_difference (sample_row "C" "F" 7) (sample_row "A" "G" 10))
        (candidates four_players "C" false)
  /\ score_difference
       (with_difference (sample_row "A" "G" 10) (sample_row "C" "F" 7))
     = score_difference
         (with_difference (sample_row "C" "F" 7) (sample_row "A" "G" 10)).
Proof.
  assert (Hne : "A" <> "C") by discriminate.
  split; [reflexivity|]. split; [reflexivity|]. split; [exact Hne|].
  apply (score_difference_symmetric four_players "A" "C");
    [reflexivity | reflexivity | exact Hne].
Defined.

Lemma get_player_input_valid_witness :
  four_players <> []
  /\ exists name t0 k,
       get_player_input four_players sample_widgets = (Some name, k, true)
       /\ target_row four_players name = Some t0
       /\ (1 <= k <= 5)%Z.
Proof.
  assert (Hne : four_players <> []) by discriminate.
  split; [exact Hne|].
  exact (get_player_input_valid four_players sample_widgets Hne).
Defined.

Lemma score_similarity_range_witness :
  (Q2Qc 0 <= Qc_of_Z 3)%Qc
  /\ (Q2Qc 0 <= score_similarity (Qc_of_Z 3))%Qc
  /\ (score_similarity (Qc_of_Z 3) <= Qc_of_Z 100)%Qc
  /\ (Qc_of_Z 3 = Q2Qc 0 -> score_similarity (Qc_of_Z 3) = Qc_of_Z 100)
  /\ (score_similarity (Qc_of_Z 3) = Q2Qc 0
      <-> (Qc_of_Z 10 <= Qc_of_Z 3)%Qc).
Proof.
  assert (H : (Q2Qc 0 <= Qc_of_Z 3)%Qc).
  { unfold Qcle. vm_compute. discriminate. }
  split; [exact H|]. exact (score_similarity_range (Qc_of_Z 3) H).
Defined.

Lemma score_similarity_antitone_witness :
  (Qc_of_Z 1 <= Qc_of_Z 2)%Qc
  /\ (score_similarity (Qc_of_Z 2) <= score_similarity (Qc_of_Z 1))%Qc.
Proof.
  assert (H : (Qc_of_Z 1 <= Qc_of_Z 2)%Qc).
  { unfold Qcle. vm_compute. discriminate. }
  split; [exact H|].
  exact (score_similarity_antitone (Qc_of_Z 1) (Qc_of_Z 2) H).
Defined.

Lemma key_stats_of_first_row_witness :
  raw_player sample_original = Some ["A"; "B"; "C"; "D"; "E"]
  /\ rectangular sample_original 5
  /\ ~ In "B" ["A"]
  /\ exists out,
       show_key_stats sample_original "B" = Done out
       /\ Forall2 (key_stat_shown sample_original 1)
                  (filter (fun stat => in_columns stat sample_original)
                          ["pts"; "reb"; "ast"])
                  out.
Proof.
  assert (Hn : ~ In "B" ["A"]).
  { intros [H|[]]. discriminate H. }
  split; [reflexivity|]. split; [exact sample_original_rectangular|].
  split; [exact Hn|].
  exact (key_stats_of_first_row sample_original 5 ["A"; "B"; "C"; "D"; "E"]
           eq_refl sample_original_rectangular "B" ["A"] ["C"; "D"; "E"]
           eq_refl Hn).
Defined.

Lemma display_raises_iff_absent_witness :
  display_player_comparison four_players sample_original "Z" [] true
  = Failed (Python IndexError)
  /\ exists out,
       display_player_comparison four_players sample_original "A" [] true
       = Done out.
Proof.
  destruct (display_raises_iff_absent sample_original 5
              ["A"; "B"; "C"; "D"; "E"] eq_refl sample_original_rectangular
              four_players "Z" [] true) as [Habsent _].
  destruct (display_raises_iff_absent sample_original 5
              ["A"; "B"; "C"; "D"; "E"] eq_refl sample_original_rectangular
              four_players "A" [] true) as [_ Hpresent].
  split.
  - apply Habsent. reflexivity.
  - apply (Hpresent (sample_row "A" "G" 10)). reflexivity.
Defined.

Lemma display_shape_witness :
  display_player_comparison four_players sample_original "A" [] true
  = Done [ target_header "A" true;
           target_metrics "A" (sample_row "A" "G" 10);
           St.warning
             "No players found with similar career scores in the G position." ].
Proof.
  destruct (display_shape sample_original 5 ["A"; "B"; "C"; "D"; "E"]
              eq_refl sample_original_rectangular four_players "A" [] true
              (sample_row "A" "G" 10) eq_refl) as [Hempty _].
  exact (Hempty eq_refl).
Defined.

Lemma load_original_data_witness :
  load_and_process_data sqrt_floor sample_raw
  = Some (sample_final, sample_original)
  /\ raw_player sample_original = Some (f_player sample_final)
  /\ raw_pos sample_original = Some (f_pos sample_final)
  /\ raw_columns sample_original = raw_columns sample_raw
  /\ (forall p, raw_pos sample_raw = Some p -> sample_original = sample_raw).
Proof.
  split; [exact sample_load|].
  exact (load_original_data sqrt_floor sample_raw sample_final
           sample_original sample_load).
Defined.

Lemma on_find_similar_never_raises_witness :
  rectangular sample_raw 5
  /\ load_and_process_data sqrt_floor sample_raw
     = Some (sample_final, sample_original)
  /\ exists name similar out,
       fst (fst (get_player_input (rows_of sample_final) sample_widgets))
       = Some name
       /\ In name (f_player sample_final)
       /\ find_similar_players (rows_of sample_final) name
            (snd (fst (get_player_input (rows_of sample_final)
                                        sample_widgets)))
            (snd (get_player_input (rows_of sample_final) sample_widgets))
          = Ok similar
       /\ (length similar <= 5)%nat
       /\ on_find_similar (rows_of sample_final) sample_original
                          sample_widgets = Done out.
Proof.
  split; [exact sample_rectangular|]. split; [exact sample_load|].
  exact (on_find_similar_never_raises sqrt_floor sample_raw 5 sample_final
           sample_original sample_widgets sample_rectangular sample_load).
Defined.

Lemma dataset_summary_witness :
  rectangular sample_raw 5
  /\ load_and_process_data sqrt_floor sample_raw
     = Some (sample_final, sample_original)
  /\ total_players sample_final = 5%nat
  /\ available_columns sample_final = 6%nat
  /\ length (rows_of sample_final) = 5%nat.
Proof.
  split; [exact sample_rectangular|]. split; [exact sample_load|].
  exact (dataset_summary sqrt_floor sample_raw 5 sample_final
           sample_original sample_rectangular sample_load).
Defined.
